(** * Checkmate approximate schedulers: rounding of the LP relaxation and
      the structural checkpointing heuristics of Chen et al.

    Shallow embedding of
      - checkmate/core/solvers/strategy_chen.py
      - checkmate/core/solvers/strategy_approx_lp.py
    together with the properties their specification states.

    Conventions.
    - Python [int] is [Z]; vertex identifiers and list positions are [nat].
    - numpy floats are modelled by the rationals they denote ([Q]); every
      comparison the code performs on them is exact, so [Qle_bool] is the
      comparison of the code (NaN does not occur in a relaxation solution).
    - [None] of Python is [None] of [option].
    - The graph model, the recompute-matrix solver, the scheduler, the
      relaxation solver and numpy's random module are collaborators that live
      outside the two files; they are gathered in the class [Collaborators].
    - What the code writes to the log and to the console is left out. *)

From Stdlib Require Import ZArith QArith Lia List.
From stdpp Require Import base option list gmap strings sorting.

(** ** Data model *)

(** The part of [DFGraph] the solvers read.  [articulation_points] is a
    Python set; it is kept as the list of its elements in iteration order,
    because [solve_chen_sqrtn] enumerates it. *)
Record DFGraph := mkDFGraph {
  v : list nat;
  articulation_points : list nat;
  topological_order_fwd : list nat;
  cost_ram : gmap nat Z
}.

(** Members of [SolveStrategy] used by the two files. *)
Inductive SolveStrategy :=
| CHEN_GREEDY
| CHEN_GREEDY_NOAP
| CHEN_SQRTN
| CHEN_SQRTN_NOAP
| APPROX_DET_ROUND_LP_SWEEP
| APPROX_RANDOMIZED_ROUND.

(** [ImposedSchedule]: only [FULL_SCHEDULE] is named by the two files. *)
Inductive ImposedSchedule :=
| FULL_SCHEDULE
| IMPOSED_OTHER (tag : nat).

(** Matrices are lists of rows. *)
Definition FMatrix := list (list Q).
Definition BMatrix := list (list Z).

(** Aggregate statistics of a schedule (the two fields the solvers read). *)
Record SchedulerAuxData := mkAux {
  cpu : Z;
  activation_ram : Z
}.

(** The keyword dictionary handed to the relaxation solver.  [TimeLimit]
    is [None] for [math.inf]. *)
Record GurobiParams := mkParams {
  LogToConsole : Z;
  LogFile : string;
  Threads : option Z;
  TimeLimit : option Z;
  OptimalityTol : Q;
  IntFeasTol : Q;
  Presolve : Z;
  StartNodeLimit : Z
}.

(** The arguments an [ILPSolver] object is constructed with.
    [ilp_imposed_schedule] is [None] when the caller leaves the keyword to
    the constructor's default. *)
Record ILPSolver := mkILPSolver {
  ilp_g : DFGraph;
  ilp_budget : Z;
  ilp_gurobi_params : GurobiParams;
  ilp_seed_s : option FMatrix;
  ilp_integral : bool;
  ilp_solve_r : bool;
  ilp_eps_noise : Q;
  ilp_imposed_schedule : option ImposedSchedule;
  ilp_write_model_file : option string
}.

(** Python exceptions, up to what [except ValueError] can tell apart:
    instances of [ValueError] (or of a subclass), and all the others. *)
Inductive PyException :=
| ValueError (msg : string)
| OtherException (cls msg : string).

(** What [lpsolver.solve()] does: return [(r, s, u, free_e)] or raise. *)
Inductive SolveOutcome :=
| Solved (r s u free_e : FMatrix)
| Raised (e : PyException).

(** The solver object after [build_model()] and [solve()]: the outcome of
    [solve()] and the attributes read afterwards ([solve_time],
    [m.numConstrs], [m.numVars]).  The constructor and [build_model()],
    which run outside the [try], are taken to return. *)
Record LPRun (Time : Type) := mkLPRun {
  outcome : SolveOutcome;
  solve_time : Time;
  numConstrs : Z;
  numVars : Z
}.
Arguments outcome {Time} _.
Arguments solve_time {Time} _.
Arguments numConstrs {Time} _.
Arguments numVars {Time} _.

Record ILPAuxData := mkILPAux {
  U : option FMatrix;
  Free_E : option FMatrix;
  ilp_approx : bool;
  ilp_time_limit : option Z;
  ilp_eps_noise_used : Q;
  ilp_num_constraints : Z;
  ilp_num_variables : Z;
  approx_deterministic_round_threshold : option Q
}.

Record ScheduledResult (Schedule Time : Type) := mkResult {
  solve_strategy : SolveStrategy;
  solver_budget : Z;
  feasible : bool;
  schedule : option Schedule;
  schedule_aux_data : option SchedulerAuxData;
  solve_time_s : Time;
  ilp_aux_data : option ILPAuxData
}.
Arguments mkResult {Schedule Time}.
Arguments solve_strategy {Schedule Time} _.
Arguments solver_budget {Schedule Time} _.
Arguments feasible {Schedule Time} _.
Arguments schedule {Schedule Time} _.
Arguments schedule_aux_data {Schedule Time} _.
Arguments solve_time_s {Schedule Time} _.
Arguments ilp_aux_data {Schedule Time} _.

(** ** Collaborators *)

(** Everything the two files import and call.  The global numpy generator
    is a piece of ambient state: [np_random_normal] and [np_random_rand]
    read it and leave a new one behind. *)
Class Collaborators := {
  Schedule : Type;
  Time : Type;
  RandomState : Type;
  gen_s_matrix_fixed_checkpoints : DFGraph -> gset nat -> BMatrix;
  solve_r_opt : DFGraph -> BMatrix -> BMatrix;
  schedule_from_rs : DFGraph -> BMatrix -> BMatrix -> Schedule * SchedulerAuxData;
  lpsolver_run : ILPSolver -> LPRun Time;
  np_random_normal : Q -> Q -> RandomState -> Q * RandomState;
  np_random_rand : nat -> nat -> RandomState -> FMatrix * RandomState
}.

(** ** strategy_chen.py *)

Module Chen.
Section Chen.
Context `{Collaborators}.

(** [C = g.articulation_points if use_actuation_points else g.v] *)
Definition eligible (g : DFGraph) (use_actuation_points : bool) : list nat :=
  if use_actuation_points then articulation_points g else v g.

(** The loop variables [temp], [x], [checkpoints]. *)
Record GreedyState := mkGreedy {
  temp : Z;
  x : Z;
  checkpoints : gset nat
}.

(** One iteration of the loop of [solve_chen_greedy].  [g.cost_ram[v]]
    raises [KeyError] for a vertex without a cost: [None]. *)
Definition greedy_step (g : DFGraph) (C : list nat) (segment_mem_B : Z)
    (st : GreedyState) (w : nat) : option GreedyState :=
  match cost_ram g !! w with
  | None => None
  | Some c =>
      let temp' := (temp st + c)%Z in
      if bool_decide (w ∈ C) && (segment_mem_B <? temp')%Z
      then Some (mkGreedy 0 (x st + c) (checkpoints st ∪ {[ w ]}))
      else Some (mkGreedy temp' (x st) (checkpoints st))
  end.

Fixpoint greedy_loop (g : DFGraph) (C : list nat) (segment_mem_B : Z)
    (order : list nat) (st : GreedyState) : option GreedyState :=
  match order with
  | [] => Some st
  | w :: order' =>
      match greedy_step g C segment_mem_B st w with
      | None => None
      | Some st' => greedy_loop g C segment_mem_B order' st'
      end
  end.

(** The checkpoint set [solve_chen_greedy] hands to
    [gen_s_matrix_fixed_checkpoints]. *)
Definition greedy_checkpoints (g : DFGraph) (segment_mem_B : Z)
    (use_actuation_points : bool) : option (gset nat) :=
  checkpoints <$>
    greedy_loop g (eligible g use_actuation_points) segment_mem_B
      (topological_order_fwd g) (mkGreedy 0 0 ∅).

(** [solve_chen_greedy]; [elapsed] is the reading of the timer. *)
Definition solve_chen_greedy (g : DFGraph) (segment_mem_B : Z)
    (use_actuation_points : bool) (elapsed : Time)
    : option (ScheduledResult Schedule Time) :=
  match greedy_checkpoints g segment_mem_B use_actuation_points with
  | None => None
  | Some cps =>
      let S := gen_s_matrix_fixed_checkpoints g cps in
      let R := solve_r_opt g S in
      let '(sched, aux_data) := schedule_from_rs g R S in
      Some (mkResult
              (if use_actuation_points then CHEN_GREEDY else CHEN_GREEDY_NOAP)
              segment_mem_B true (Some sched) (Some aux_data) elapsed None)
  end.

(** [k = int(math.sqrt(len(C)))].  The float square root is correctly
    rounded, so for every length below 2^52 its truncation is the integer
    square root. *)
Definition sqrtn_k (C : list nat) : nat := Nat.sqrt (length C).

(** [[v for idx, v in enumerate(C) if (idx + 1) % k == 0]], with [idx]
    starting at [i].  For an empty [C] the modulus is never evaluated. *)
Fixpoint every_kth (k i : nat) (C : list nat) : list nat :=
  match C with
  | [] => []
  | w :: C' =>
      if ((i + 1) mod k =? 0)%nat then w :: every_kth k (S i) C'
      else every_kth k (S i) C'
  end.

Definition sqrtn_checkpoints (g : DFGraph) (use_actuation_points : bool)
    : list nat :=
  let C := eligible g use_actuation_points in
  every_kth (sqrtn_k C) 0 C.

Definition solve_chen_sqrtn (g : DFGraph) (use_actuation_points : bool)
    (elapsed : Time) : ScheduledResult Schedule Time :=
  let cps := sqrtn_checkpoints g use_actuation_points in
  let S := gen_s_matrix_fixed_checkpoints g (list_to_set cps) in
  let R := solve_r_opt g S in
  let '(sched, aux_data) := schedule_from_rs g R S in
  mkResult (if use_actuation_points then CHEN_SQRTN else CHEN_SQRTN_NOAP)
           0 true (Some sched) (Some aux_data) elapsed None.

End Chen.
End Chen.

(** ** strategy_approx_lp.py *)

(** A call either returns or lets an exception escape to its caller. *)
Inductive Completion (A : Type) :=
| Returns (a : A)
| Raises (e : PyException).
Arguments Returns {A} _.
Arguments Raises {A} _.

(** [int(0.9 * budget)]: the double product truncated towards zero.  For
    every budget of magnitude below 2^49 the rounding error of the product
    is too small to cross an integer, and the value is the truncated exact
    quotient. *)
Definition int_09 (budget : Z) : Z := Z.quot (9 * budget) 10.

(** Python's [max] and [min] on two floats: the first argument is returned
    unless the second is strictly larger (smaller). *)
Definition py_max (a b : Q) : Q := if Qle_bool b a then a else b.
Definition py_min (a b : Q) : Q := if Qle_bool a b then a else b.

(** [(s >= threshold).astype(np.int)] *)
Definition binarize (s : FMatrix) (threshold : Q) : BMatrix :=
  map (map (fun e => Z.b2z (Qle_bool threshold e))) s.

(** [(u <= s).astype(np.int32)] for [u] of the shape of [s]. *)
Definition bernoulli (u s : FMatrix) : BMatrix :=
  zip_with (zip_with (fun a p => Z.b2z (Qle_bool a p))) u s.

(** [s.shape] of a two-dimensional array. *)
Definition shape (s : FMatrix) : nat * nat :=
  (length s, match s with [] => 0%nat | row :: _ => length row end).

(** The doubles written [1e-2], [1e-3], [1e-4] and [1e-5]. *)
Definition double_1e_2 : Q := 5764607523034235 # 576460752303423488.
Definition double_1e_3 : Q := 1152921504606847 # 1152921504606846976.
Definition double_1e_4 : Q := 7378697629483821 # 73786976294838206464.
Definition double_1e_5 : Q := 5902958103587057 # 590295810358705651712.

(** The dictionary [param_dict] both entry points build. *)
Definition param_dict (print_to_console : bool) (write_log_file : option string)
    (solver_cores : option Z) (time_limit : option Z) (approx : bool)
    : GurobiParams :=
  {| LogToConsole := if print_to_console then 1 else 0;
     LogFile := match write_log_file with Some f => f | None => EmptyString end;
     Threads := solver_cores;
     TimeLimit := time_limit;
     OptimalityTol := if approx then double_1e_2 else double_1e_4;
     IntFeasTol := if approx then double_1e_3 else double_1e_5;
     Presolve := 2;
     StartNodeLimit := 10000000 |}.

(** The default of the keyword [thresholds]: the doubles written
    [0.1, ..., 0.9]. *)
Definition default_thresholds : list Q :=
  [ 3602879701896397 # 36028797018963968;
    3602879701896397 # 18014398509481984;
    5404319552844595 # 18014398509481984;
    3602879701896397 # 9007199254740992;
    1 # 2;
    5404319552844595 # 9007199254740992;
    3152519739159347 # 4503599627370496;
    3602879701896397 # 4503599627370496;
    8106479329266893 # 9007199254740992 ].

Module ApproxLP.

(** The variables [schedule], [aux_data], [min_threshold] of the sweep. *)
Record SweepState (Schedule : Type) := mkSweep {
  sw_schedule : option Schedule;
  sw_aux_data : option SchedulerAuxData;
  sw_min_threshold : option Q
}.
Arguments mkSweep {Schedule}.
Arguments sw_schedule {Schedule} _.
Arguments sw_aux_data {Schedule} _.
Arguments sw_min_threshold {Schedule} _.

(** The first component of [best_solution]: [float("inf")] or a cpu. *)
Inductive Cost :=
| CostInf
| CostOf (c : Z).

(** [best_solution] and the three lists of per-round statistics. *)
Record RoundState (Schedule : Type) := mkRound {
  best_cost : Cost;
  best_schedule : option Schedule;
  best_aux_data : option SchedulerAuxData;
  rounding_cpus : list Z;
  rounding_activation_rams : list Z;
  rounding_in_budgets : list bool
}.
Arguments mkRound {Schedule}.
Arguments best_cost {Schedule} _.
Arguments best_schedule {Schedule} _.
Arguments best_aux_data {Schedule} _.
Arguments rounding_cpus {Schedule} _.
Arguments rounding_activation_rams {Schedule} _.
Arguments rounding_in_budgets {Schedule} _.

(** The dictionary returned next to the result when [return_rounds]. *)
Record RoundingStatistics := mkStats {
  stat_cpu : list Z;
  stat_activation_ram : list Z;
  stat_in_budget : list bool
}.

(** What [solve_approx_lp_randomized] returns: the result alone, or the
    pair of the result and the statistics. *)
Inductive RandomizedReturn (Schedule Time : Type) :=
| ResultOnly (r : ScheduledResult Schedule Time)
| ResultAndRounds (r : ScheduledResult Schedule Time) (stats : RoundingStatistics).
Arguments ResultOnly {Schedule Time} _.
Arguments ResultAndRounds {Schedule Time} _ _.

Section ApproxLP.
Context `{Collaborators}.

(** The candidate of one threshold: [schedule_from_rs(g, r_, s_)]. *)
Definition candidate (g : DFGraph) (s_ : BMatrix) : Schedule * SchedulerAuxData :=
  schedule_from_rs g (solve_r_opt g s_) s_.

(** [aux_data is None or aux_data_.cpu <= aux_data.cpu] *)
Definition cpu_not_worse (aux_data_ : SchedulerAuxData)
    (aux_data : option SchedulerAuxData) : bool :=
  match aux_data with
  | None => true
  | Some a => (cpu aux_data_ <=? cpu a)%Z
  end.

(** The condition of the [if] in the sweep. *)
Definition sweep_accepts (budget : Z) (allow_return_infeasible_schedule : bool)
    (aux_data_ : SchedulerAuxData) (aux_data : option SchedulerAuxData) : bool :=
  (allow_return_infeasible_schedule && bool_decide (aux_data = None))
  || ((activation_ram aux_data_ <=? budget)%Z && cpu_not_worse aux_data_ aux_data).

(** The body of [for threshold in thresholds]. *)
Definition sweep_step (g : DFGraph) (budget : Z)
    (allow_return_infeasible_schedule : bool) (s : FMatrix)
    (st : SweepState Schedule) (threshold : Q) : SweepState Schedule :=
  let c := candidate g (binarize s threshold) in
  if sweep_accepts budget allow_return_infeasible_schedule c.2 (sw_aux_data st)
  then mkSweep (Some c.1) (Some c.2) (Some threshold)
  else st.

Definition sweep_loop (g : DFGraph) (budget : Z)
    (allow_return_infeasible_schedule : bool) (s : FMatrix)
    (thresholds : list Q) (st : SweepState Schedule) : SweepState Schedule :=
  fold_left (sweep_step g budget allow_return_infeasible_schedule s) thresholds st.

(** The solver object the sweep constructs. *)
Definition sweep_lpsolver (g : DFGraph) (budget : Z) (seed_s : option FMatrix)
    (approx : bool) (time_limit : option Z) (write_log_file : option string)
    (print_to_console : bool) (write_model_file : option string) (eps_noise : Q)
    (solver_cores : option Z) (imposed_schedule : ImposedSchedule) : ILPSolver :=
  {| ilp_g := g;
     ilp_budget := int_09 budget;
     ilp_gurobi_params :=
       param_dict print_to_console write_log_file solver_cores time_limit approx;
     ilp_seed_s := seed_s;
     ilp_integral := false;
     ilp_solve_r := false;
     ilp_eps_noise := eps_noise;
     ilp_imposed_schedule := Some imposed_schedule;
     ilp_write_model_file := write_model_file |}.

Definition solve_approx_lp_deterministic_sweep (g : DFGraph) (budget : Z)
    (seed_s : option FMatrix) (approx : bool) (time_limit : option Z)
    (write_log_file : option string) (print_to_console : bool)
    (write_model_file : option string) (eps_noise : Q) (solver_cores : option Z)
    (thresholds : list Q) (imposed_schedule : ImposedSchedule)
    (allow_return_infeasible_schedule : bool)
    : Completion (ScheduledResult Schedule Time) :=
  let lpsolver :=
    lpsolver_run
      (sweep_lpsolver g budget seed_s approx time_limit write_log_file
         print_to_console write_model_file eps_noise solver_cores
         imposed_schedule) in
  let finish (lp_feasible : bool) (u free_e : option FMatrix) (st : SweepState Schedule) :=
    Returns
      (mkResult APPROX_DET_ROUND_LP_SWEEP budget
         (lp_feasible && bool_decide (sw_aux_data st <> None))
         (sw_schedule st) (sw_aux_data st) (solve_time lpsolver)
         (Some {| U := u; Free_E := free_e; ilp_approx := approx;
                  ilp_time_limit := time_limit; ilp_eps_noise_used := eps_noise;
                  ilp_num_constraints := numConstrs lpsolver;
                  ilp_num_variables := numVars lpsolver;
                  approx_deterministic_round_threshold := sw_min_threshold st |})) in
  match outcome lpsolver with
  | Solved r s u free_e =>
      finish true (Some u) (Some free_e)
        (sweep_loop g budget allow_return_infeasible_schedule s thresholds
           (mkSweep None None None))
  | Raised (ValueError _) =>
      finish false None None (mkSweep None None None)
  | Raised e => Raises e
  end.

(** [[min(1.0, max(0.0, np.random.normal(0.5, 0.5))) for i in range(n_samples)]]:
    [n] successive draws from the global generator. *)
Fixpoint draw_thresholds (n : nat) (rs : RandomState) : list Q * RandomState :=
  match n with
  | O => ([], rs)
  | S n' =>
      let d := np_random_normal (1 # 2) (1 # 2) rs in
      let rest := draw_thresholds n' d.2 in
      (py_min 1 (py_max 0 d.1) :: rest.1, rest.2)
  end.

(** The thresholds are drawn before the solver is even constructed; the
    sweep is called with its defaults for [imposed_schedule] and
    [allow_return_infeasible_schedule]. *)
Definition solve_approx_lp_deterministic_rand_threshold (g : DFGraph) (budget : Z)
    (seed_s : option FMatrix) (approx : bool) (time_limit : option Z)
    (write_log_file : option string) (print_to_console : bool)
    (write_model_file : option string) (eps_noise : Q) (solver_cores : option Z)
    (n_samples : Z) (rs : RandomState)
    : Completion (ScheduledResult Schedule Time) * RandomState :=
  let d := draw_thresholds (Z.to_nat n_samples) rs in
  (solve_approx_lp_deterministic_sweep g budget seed_s approx time_limit
     write_log_file print_to_console write_model_file eps_noise solver_cores
     d.1 FULL_SCHEDULE false,
   d.2).

(** [n_samples] is accepted and ignored. *)
Definition solve_approx_lp_deterministic_05_threshold (g : DFGraph) (budget : Z)
    (seed_s : option FMatrix) (approx : bool) (time_limit : option Z)
    (write_log_file : option string) (print_to_console : bool)
    (write_model_file : option string) (eps_noise : Q) (solver_cores : option Z)
    (n_samples : Z) (allow_return_infeasible_schedule : bool)
    : Completion (ScheduledResult Schedule Time) :=
  solve_approx_lp_deterministic_sweep g budget seed_s approx time_limit
    write_log_file print_to_console write_model_file eps_noise solver_cores
    [1 # 2] FULL_SCHEDULE allow_return_infeasible_schedule.

(** [aux_data.cpu <= best_solution[0]] *)
Definition cpu_le_cost (c : Z) (b : Cost) : bool :=
  match b with
  | CostInf => true
  | CostOf c' => (c <=? c')%Z
  end.

(** [best_solution[2] is None or aux_data.cpu <= best_solution[0]] *)
Definition round_improves (aux_data : SchedulerAuxData)
    (st : RoundState Schedule) : bool :=
  match best_aux_data st with
  | None => true
  | Some _ => cpu_le_cost (cpu aux_data) (best_cost st)
  end.

(** The body of [for i in range(num_rounds)] (the progress line it prints
    is left out).  [np.random.rand] returns a matrix of the requested
    shape, so the comparison is cell by cell. *)
Definition round_step (g : DFGraph) (budget : Z) (s : FMatrix)
    (st : RoundState Schedule * RandomState)
    : RoundState Schedule * RandomState :=
  let d := np_random_rand (shape s).1 (shape s).2 st.2 in
  let c := candidate g (bernoulli d.1 s) in
  let in_budget := (activation_ram c.2 <=? budget)%Z in
  let cpus := rounding_cpus st.1 ++ [cpu c.2] in
  let rams := rounding_activation_rams st.1 ++ [activation_ram c.2] in
  let ins := rounding_in_budgets st.1 ++ [in_budget] in
  if in_budget && round_improves c.2 st.1
  then (mkRound (CostOf (cpu c.2)) (Some c.1) (Some c.2) cpus rams ins, d.2)
  else (mkRound (best_cost st.1) (best_schedule st.1) (best_aux_data st.1)
          cpus rams ins, d.2).

Fixpoint round_loop (g : DFGraph) (budget : Z) (s : FMatrix) (num_rounds : nat)
    (st : RoundState Schedule * RandomState)
    : RoundState Schedule * RandomState :=
  match num_rounds with
  | O => st
  | S n => round_loop g budget s n (round_step g budget s st)
  end.

Definition returned_result (ret : RandomizedReturn Schedule Time)
    : ScheduledResult Schedule Time :=
  match ret with
  | ResultOnly r => r
  | ResultAndRounds r _ => r
  end.

(** The solver object the randomized rounding constructs: no
    [imposed_schedule] keyword. *)
Definition randomized_lpsolver (g : DFGraph) (budget : Z) (seed_s : option FMatrix)
    (approx : bool) (time_limit : option Z) (write_log_file : option string)
    (print_to_console : bool) (write_model_file : option string) (eps_noise : Q)
    (solver_cores : option Z) : ILPSolver :=
  {| ilp_g := g;
     ilp_budget := int_09 budget;
     ilp_gurobi_params :=
       param_dict print_to_console write_log_file solver_cores time_limit approx;
     ilp_seed_s := seed_s;
     ilp_integral := false;
     ilp_solve_r := false;
     ilp_eps_noise := eps_noise;
     ilp_imposed_schedule := None;
     ilp_write_model_file := write_model_file |}.

Definition solve_approx_lp_randomized (g : DFGraph) (budget : Z)
    (seed_s : option FMatrix) (approx : bool) (time_limit : option Z)
    (write_log_file : option string) (print_to_console : bool)
    (write_model_file : option string) (eps_noise : Q) (solver_cores : option Z)
    (num_rounds : Z) (return_rounds : bool) (rs : RandomState)
    : Completion (RandomizedReturn Schedule Time) * RandomState :=
  let lpsolver :=
    lpsolver_run
      (randomized_lpsolver g budget seed_s approx time_limit write_log_file
         print_to_console write_model_file eps_noise solver_cores) in
  let start := mkRound CostInf None None [] [] [] in
  let finish (lp_feasible : bool) (u free_e : option FMatrix)
             (st : RoundState Schedule * RandomState) :=
    let scheduled_result :=
      mkResult APPROX_RANDOMIZED_ROUND budget lp_feasible
        (best_schedule st.1) (best_aux_data st.1) (solve_time lpsolver)
        (Some {| U := u; Free_E := free_e; ilp_approx := approx;
                 ilp_time_limit := time_limit; ilp_eps_noise_used := eps_noise;
                 ilp_num_constraints := numConstrs lpsolver;
                 ilp_num_variables := numVars lpsolver;
                 approx_deterministic_round_threshold := None |}) in
    (Returns
       (if return_rounds
        then ResultAndRounds scheduled_result
               (mkStats (rounding_cpus st.1) (rounding_activation_rams st.1)
                  (rounding_in_budgets st.1))
        else ResultOnly scheduled_result),
     st.2) in
  match outcome lpsolver with
  | Solved r s u free_e =>
      finish true (Some u) (Some free_e)
        (round_loop g budget s (Z.to_nat num_rounds) (start, rs))
  | Raised (ValueError _) => finish false None None (start, rs)
  | Raised e => (Raises e, rs)
  end.

End ApproxLP.
End ApproxLP.

(** ** Concrete collaborators and inputs

    A small instance of the collaborators on which the operations above can
    be evaluated.  A schedule is represented by its stored matrix; every
    stored cell costs one unit of memory and every cell that is not stored
    costs one unit of recomputation.  The relaxation solver hands back the
    seed matrix, finds the model infeasible when there is none, and fails
    with a solver error on a negative budget.  The generator state is a
    counter. *)

Module Fixture.

Definition sumZ (l : list Z) : Z := fold_right Z.add 0%Z l.

Definition cells (m : BMatrix) : Z := sumZ (map sumZ m).

Definition toy_gen_s (g : DFGraph) (cps : gset nat) : BMatrix :=
  [map (fun w => Z.b2z (bool_decide (w ∈ cps))) (v g)].

Definition toy_solve_r_opt (g : DFGraph) (s : BMatrix) : BMatrix :=
  map (map (fun b => (1 - b)%Z)) s.

Definition toy_schedule_from_rs (g : DFGraph) (r s : BMatrix)
    : BMatrix * SchedulerAuxData :=
  (s, {| cpu := cells r; activation_ram := cells s |}).

Definition toy_lpsolver_run (solver : ILPSolver) : LPRun Z :=
  {| outcome :=
       if (ilp_budget solver <? 0)%Z
       then Raised (OtherException "GurobiError" "negative budget")
       else match ilp_seed_s solver with
            | Some s => Solved s s s s
            | None => Raised (ValueError "Infeasible model")
            end;
     solve_time := 0%Z;
     numConstrs := 0%Z;
     numVars := 0%Z |}.

(** The uniform value handed out in state [st]: one of 0, 1/4, 1/2, 3/4. *)
Definition toy_uniform (st : Z) : Q := (st mod 4)%Z # 4.

Definition toy_normal (mu sigma : Q) (st : Z) : Q * Z :=
  (Qplus mu (Qmult sigma (Qminus (Qmult 4 (toy_uniform st)) 2)), (st + 1)%Z).

Definition toy_rand (rows cols : nat) (st : Z) : FMatrix * Z :=
  (replicate rows (replicate cols (toy_uniform st)), (st + 1)%Z).

#[local] Instance toy : Collaborators :=
  {| Schedule := BMatrix;
     Time := Z;
     RandomState := Z;
     gen_s_matrix_fixed_checkpoints := toy_gen_s;
     solve_r_opt := toy_solve_r_opt;
     schedule_from_rs := toy_schedule_from_rs;
     lpsolver_run := toy_lpsolver_run;
     np_random_normal := toy_normal;
     np_random_rand := toy_rand |}.

(** The linear chain of [n] vertices, each of memory cost 1.  Its interior
    vertices are its cut vertices. *)
Definition chain (n : nat) : DFGraph :=
  {| v := seq 0 n;
     articulation_points := seq 1 (n - 2);
     topological_order_fwd := seq 0 n;
     cost_ram := list_to_map (map (fun w => (w, 1%Z)) (seq 0 n)) |}.

(** The entry points on these collaborators, with the seed matrix [s], the
    approximate tolerances, no time limit, no files and no console output. *)
Definition sweep (g : DFGraph) (budget : Z) (s : FMatrix) (thresholds : list Q)
    (allow_return_infeasible_schedule : bool) :=
  ApproxLP.solve_approx_lp_deterministic_sweep g budget (Some s) true None
    None false None (1 # 100) None thresholds FULL_SCHEDULE
    allow_return_infeasible_schedule.

Definition half_threshold (g : DFGraph) (budget : Z) (s : FMatrix)
    (allow_return_infeasible_schedule : bool) :=
  ApproxLP.solve_approx_lp_deterministic_05_threshold g budget (Some s) true
    None None false None (1 # 100) None 1 allow_return_infeasible_schedule.

Definition rand_threshold (g : DFGraph) (budget : Z) (s : FMatrix)
    (n_samples : Z) (rs : Z) :=
  ApproxLP.solve_approx_lp_deterministic_rand_threshold g budget (Some s) true
    None None false None (1 # 100) None n_samples rs.

Definition randomized (g : DFGraph) (budget : Z) (s : option FMatrix)
    (num_rounds : Z) (rs : Z) :=
  ApproxLP.solve_approx_lp_randomized g budget s true None None false None
    (1 # 100) None num_rounds true rs.

End Fixture.

(** ** Notions used to state the properties *)

Module Notions.

(** The same collaborators with another relaxation solver. *)
Definition with_lpsolver (C : Collaborators)
    (run : ILPSolver -> LPRun (@Time C)) : Collaborators :=
  {| Schedule := @Schedule C;
     Time := @Time C;
     RandomState := @RandomState C;
     gen_s_matrix_fixed_checkpoints := @gen_s_matrix_fixed_checkpoints C;
     solve_r_opt := @solve_r_opt C;
     schedule_from_rs := @schedule_from_rs C;
     lpsolver_run := run;
     np_random_normal := @np_random_normal C;
     np_random_rand := @np_random_rand C |}.

(** A list of thresholds in ascending order. *)
Definition ascending (l : list Q) : Prop :=
  forall i j ti tj,
    (i <= j)%nat -> l !! i = Some ti -> l !! j = Some tj -> Qle ti tj.

Section Notions.
Context `{Collaborators}.

(** A schedule with these statistics fits the budget. *)
Definition within (budget : Z) (a : SchedulerAuxData) : Prop :=
  (activation_ram a <= budget)%Z.

(** The statistics of the candidate the sweep derives for a threshold. *)
Definition stats_at (g : DFGraph) (s : FMatrix) (threshold : Q) : SchedulerAuxData :=
  (ApproxLP.candidate g (binarize s threshold)).2.

(** The matrices [n] successive calls of [np.random.rand] hand out. *)
Fixpoint rand_draws (rows cols n : nat) (rs : RandomState) : list FMatrix :=
  match n with
  | O => []
  | S n' =>
      let d := np_random_rand rows cols rs in
      d.1 :: rand_draws rows cols n' d.2
  end.


(** What the sweep has kept after the thresholds [l]: nothing when no
    candidate fits the budget; otherwise a candidate that fits, is cheapest
    among those that fit, and comes last among the cheapest. *)
Definition selects_last_cheapest (g : DFGraph) (budget : Z) (s : FMatrix)
    (l : list Q) (st : ApproxLP.SweepState Schedule) : Prop :=
  match ApproxLP.sw_aux_data st with
  | None =>
      st = ApproxLP.mkSweep None None None /\
      forall i t, l !! i = Some t -> ~ within budget (stats_at g s t)
  | Some _ =>
      exists j tj,
        l !! j = Some tj /\
        st = ApproxLP.mkSweep (Some (ApproxLP.candidate g (binarize s tj)).1)
               (Some (stats_at g s tj)) (Some tj) /\
        within budget (stats_at g s tj) /\
        forall i t, l !! i = Some t -> within budget (stats_at g s t) ->
          (cpu (stats_at g s tj) <= cpu (stats_at g s t))%Z /\
          (cpu (stats_at g s t) = cpu (stats_at g s tj) -> (i <= j)%nat)
  end.

(** What the rounds keep fits the budget, and every recorded flag is the
    comparison of the recorded memory with the budget. *)
Definition round_invariant (budget : Z) (st : ApproxLP.RoundState Schedule)
    : Prop :=
  (forall a, ApproxLP.best_aux_data st = Some a -> within budget a) /\
  (ApproxLP.best_aux_data st = None -> ApproxLP.best_schedule st = None) /\
  ApproxLP.rounding_in_budgets st =
    map (fun ram => (ram <=? budget)%Z) (ApproxLP.rounding_activation_rams st).

(** The values [n] successive calls of [np.random.normal(0.5, 0.5)] hand
    out. *)
Fixpoint normal_draws (n : nat) (rs : RandomState) : list Q :=
  match n with
  | O => []
  | S n' =>
      let d := np_random_normal (1 # 2) (1 # 2) rs in
      d.1 :: normal_draws n' d.2
  end.

(** The generator state [n] calls of [np.random.normal(0.5, 0.5)] leave
    behind. *)
Fixpoint normal_state_after (n : nat) (rs : RandomState) : RandomState :=
  match n with
  | O => rs
  | S n' => normal_state_after n' (np_random_normal (1 # 2) (1 # 2) rs).2
  end.

(** Modelled on the words of the specification, not on the code: rounding
    at the single threshold 0.5.  The relaxation is solved at the reduced
    budget; when the solve fails, for whatever reason, the attempt is
    reported infeasible with no schedule and nothing is raised.  The one
    candidate is kept when it fits the budget, or unconditionally in the
    allow-infeasible mode, and the feasibility flag is truthful: it is set
    exactly when the candidate kept fits the budget. *)
Definition single_half_threshold (g : DFGraph) (budget : Z)
    (seed_s : option FMatrix) (approx : bool) (time_limit : option Z)
    (write_log_file : option string) (print_to_console : bool)
    (write_model_file : option string) (eps_noise : Q) (solver_cores : option Z)
    (allow_return_infeasible_schedule : bool)
    : Completion (ScheduledResult Schedule Time) :=
  let lpsolver :=
    lpsolver_run
      (ApproxLP.sweep_lpsolver g budget seed_s approx time_limit write_log_file
         print_to_console write_model_file eps_noise solver_cores FULL_SCHEDULE) in
  let diagnostics u free_e threshold :=
    Some {| U := u; Free_E := free_e; ilp_approx := approx;
            ilp_time_limit := time_limit; ilp_eps_noise_used := eps_noise;
            ilp_num_constraints := numConstrs lpsolver;
            ilp_num_variables := numVars lpsolver;
            approx_deterministic_round_threshold := threshold |} in
  match outcome lpsolver with
  | Solved r s u free_e =>
      let c := ApproxLP.candidate g (binarize s (1 # 2)) in
      let fits := (activation_ram c.2 <=? budget)%Z in
      if allow_return_infeasible_schedule || fits
      then Returns (mkResult APPROX_DET_ROUND_LP_SWEEP budget fits
                      (Some c.1) (Some c.2) (solve_time lpsolver)
                      (diagnostics (Some u) (Some free_e) (Some (1 # 2))))
      else Returns (mkResult APPROX_DET_ROUND_LP_SWEEP budget false
                      None None (solve_time lpsolver)
                      (diagnostics (Some u) (Some free_e) None))
  | Raised _ =>
      Returns (mkResult APPROX_DET_ROUND_LP_SWEEP budget false
                 None None (solve_time lpsolver) (diagnostics None None None))
  end.

End Notions.
End Notions.

(** ** Further notions *)

Module More.

(** The memory the vertices of [l] cost together; a vertex without a cost
    counts for nothing. *)
Definition order_cost (g : DFGraph) (l : list nat) : Z :=
  foldr (fun w acc => (default 0%Z (cost_ram g !! w) + acc)%Z) 0%Z l.

(** Every vertex of [l] has a cost, and none is negative. *)
Definition costs_nonneg (g : DFGraph) (l : list nat) : Prop :=
  Forall (fun w => exists c, cost_ram g !! w = Some c /\ (0 <= c)%Z) l.

End More.

Module MoreRounding.

(** The entry of a matrix at row [i] and column [j], if there is one. *)
Definition cell {A : Type} (m : list (list A)) (i j : nat) : option A :=
  m !! i ≫= (fun row => row !! j).

(** A matrix all of whose rows have [cols] entries. *)
Definition rectangular {A : Type} (cols : nat) (m : list (list A)) : Prop :=
  Forall (fun row => length row = cols) m.

Section MoreRounding.
Context `{Collaborators}.

(** The state of the sweep is empty, or it is the candidate of one of the
    thresholds of [l], kept whole. *)
Definition holds_candidate_of (g : DFGraph) (s : FMatrix) (l : list Q)
    (st : ApproxLP.SweepState Schedule) : Prop :=
  st = ApproxLP.mkSweep None None None \/
  exists t, t ∈ l /\
    st = ApproxLP.mkSweep (Some (ApproxLP.candidate g (binarize s t)).1)
           (Some (Notions.stats_at g s t)) (Some t).

(** What the rounds have recorded and kept: the three lists of statistics
    run in step, a best solution exists exactly when some round was within
    the budget, and it then is a round within the budget of minimal cpu,
    the last of those. *)
Definition round_summary (budget : Z) (st : ApproxLP.RoundState Schedule) : Prop :=
  length (ApproxLP.rounding_cpus st) = length (ApproxLP.rounding_activation_rams st) /\
  length (ApproxLP.rounding_in_budgets st) = length (ApproxLP.rounding_activation_rams st) /\
  match ApproxLP.best_aux_data st with
  | None =>
      ApproxLP.best_schedule st = None /\
      Forall (fun b => b = false) (ApproxLP.rounding_in_budgets st)
  | Some a =>
      is_Some (ApproxLP.best_schedule st) /\
      ApproxLP.best_cost st = ApproxLP.CostOf (cpu a) /\
      Notions.within budget a /\
      exists i,
        ApproxLP.rounding_cpus st !! i = Some (cpu a) /\
        ApproxLP.rounding_activation_rams st !! i = Some (activation_ram a) /\
        ApproxLP.rounding_in_budgets st !! i = Some true /\
        forall j c,
          ApproxLP.rounding_in_budgets st !! j = Some true ->
          ApproxLP.rounding_cpus st !! j = Some c ->
          (cpu a <= c)%Z /\ (c = cpu a -> (j <= i)%nat)
  end.

End MoreRounding.
End MoreRounding.

(** ** strategy_griewank.py *)

Module Griewank.

(** A row of the table of precomputed solutions: the columns the code
    reads. *)
Record RegRange := mkRegRange {
  rr_budget : Z;
  rr_timestart : Z;
  rr_timeend : Z;
  rr_nodeid : Z
}.

(** What [_load_griewank] does: return the unpickled object, a table or
    [None], or raise an exception of the class [Exception] (no file, no
    network, a corrupt pickle). *)
Inductive LoadOutcome :=
| Loaded (table : option (list RegRange))
| LoadRaised (e : PyException).

(** What the file takes from outside, next to [solve_r_opt]: [g.size],
    [g.forward_to_backward], [setup_implied_s_backwards] and the file
    system and network behind [_load_griewank]. *)
Class GriewankCollaborators := {
  size : DFGraph -> nat;
  forward_to_backward : DFGraph -> nat -> nat;
  setup_implied_s_backwards : DFGraph -> BMatrix -> BMatrix;
  load_griewank : nat -> LoadOutcome
}.

(** [np.zeros((n, n), dtype=np.int32)] *)
Definition zeros (n : nat) : BMatrix := replicate n (replicate n 0%Z).

(** [np.fill_diagonal(view, 1)] on the rows of [view], the first of which
    has the diagonal position [i]: positions outside a row are skipped. *)
Fixpoint fill_diagonal (i : nat) (view : BMatrix) : BMatrix :=
  match view with
  | [] => []
  | row :: rest => <[i := 1%Z]> row :: fill_diagonal (S i) rest
  end.

(** [np.fill_diagonal(S[1:], 1)]: the view [S[1:]] shares its cells with
    [S]. *)
Definition fill_below_diagonal (S : BMatrix) : BMatrix :=
  match S with
  | [] => []
  | row :: rest => row :: fill_diagonal 0 rest
  end.

(** [l.index(a)]: the first position of [a]; [None] for the [ValueError]
    of an absent element. *)
Fixpoint index_of (a : nat) (l : list nat) : option nat :=
  match l with
  | [] => None
  | b :: l' => if decide (b = a) then Some 0%nat else S <$> index_of a l'
  end.

(** [S[t, c] = 1]; [None] for the [IndexError] of a position outside the
    array. *)
Definition write_one (S : BMatrix) (t c : nat) : option BMatrix :=
  match S !! t with
  | Some row =>
      if decide (c < length row)%nat then Some (<[t := <[c := 1%Z]> row]> S)
      else None
  | None => None
  end.

(** [max] of a non-empty sequence of budgets. *)
Definition max_budget_of (first : RegRange) (rest : list RegRange) : Z :=
  foldl Z.max (rr_budget first) (map rr_budget rest).

Section Griewank.
Context `{Collaborators} `{GriewankCollaborators}.

(** [solve_griewank] raises before doing anything. *)
Definition solve_griewank (g : DFGraph) (budget : Z)
    : Completion (ScheduledResult Schedule Time) :=
  Raises (OtherException "NotImplementedError"
            "Griewank's checkpointing strategy does not support the nonlinear structure of low-level Tensorflow graphs.").

(** [list(sorted(g.articulation_points))] *)
Definition sorted_ap_points (g : DFGraph) : list nat :=
  merge_sort (≤)%nat (articulation_points g).

(** [ap_points + [g.forward_to_backward(p) for p in reversed(ap_points)]] *)
Definition ap_points (g : DFGraph) : list nat :=
  sorted_ap_points g ++ map (forward_to_backward g) (reverse (sorted_ap_points g)).

(** [{ap_points.index(ap_point): ap_point for ap_point in ap_points}] *)
Definition meta_to_real_v (g : DFGraph) : gmap nat nat :=
  foldl (fun m ap =>
           match index_of ap (ap_points g) with
           | Some i => <[i := ap]> m
           | None => m
           end)
    ∅ (ap_points g).

(** [meta_to_real_v.get(k)] for an integer key. *)
Definition meta_get (g : DFGraph) (k : Z) : option nat :=
  if (k <? 0)%Z then None else meta_to_real_v g !! Z.to_nat k.

(** [map_time]: [min(meta_to_real_v.get(_t, np.inf), g.size)] *)
Definition map_time (g : DFGraph) (_t : Z) : nat :=
  match meta_get g _t with
  | Some w => Nat.min w (size g)
  | None => size g
  end.

(** The inner loop [for t in range(...)] for one row; the key is looked up
    anew at every step, and a missing key is a [KeyError]. *)
Fixpoint mark_steps (g : DFGraph) (nodeid : Z) (steps : list nat) (S : BMatrix)
    : Completion BMatrix :=
  match steps with
  | [] => Returns S
  | t :: steps' =>
      if (0 <? nodeid)%Z then
        match meta_get g nodeid with
        | None => Raises (OtherException "KeyError" "nodeid")
        | Some c =>
            match write_one S t c with
            | None => Raises (OtherException "IndexError" "index out of bounds")
            | Some S' => mark_steps g nodeid steps' S'
            end
        end
      else mark_steps g nodeid steps' S
  end.

(** [range(map_time(timestart), map_time(timeend + 1))] *)
Definition steps_of (g : DFGraph) (row : RegRange) : list nat :=
  seq (map_time g (rr_timestart row))
      (map_time g (rr_timeend row + 1) - map_time g (rr_timestart row)).

(** The loop over [regranges.iterrows()]. *)
Fixpoint mark_rows (g : DFGraph) (rows : list RegRange) (S : BMatrix)
    : Completion BMatrix :=
  match rows with
  | [] => Returns S
  | row :: rows' =>
      match mark_steps g (rr_nodeid row) (steps_of g row) S with
      | Raises e => Raises e
      | Returns S' => mark_rows g rows' S'
      end
  end.

(** The matrix before the table is read. *)
Definition base_matrix (g : DFGraph) : BMatrix :=
  fill_below_diagonal (setup_implied_s_backwards g (zeros (size g))).

(** The rows selected for a budget: those of budget
    [min(budget, max_budget)]. *)
Definition rows_for (budget : Z) (first : RegRange) (rest : list RegRange)
    : list RegRange :=
  filter (fun row => rr_budget row = Z.min budget (max_budget_of first rest))
    (first :: rest).

(** [_solve_griewank_to_rs]; [None] is the pair [(None, None)]. *)
Definition solve_griewank_to_rs (g : DFGraph) (budget : Z)
    : Completion (option (BMatrix * BMatrix)) :=
  match load_griewank (length (sorted_ap_points g)) with
  | LoadRaised _ => Returns None
  | Loaded None => Returns None
  | Loaded (Some []) => Raises (ValueError "max() arg is an empty sequence")
  | Loaded (Some (first :: rest)) =>
      match rows_for budget first rest with
      | [] => Returns None
      | rows =>
          match mark_rows g rows (base_matrix g) with
          | Raises e => Raises e
          | Returns S' => Returns (Some (solve_r_opt g S', S'))
          end
      end
  end.

End Griewank.

(** [B] has the shape of [A], and a cell of [B] either is the cell of [A]
    or holds 1 and lies in one of the first [n] rows. *)
Definition grows (n : nat) (A B : BMatrix) : Prop :=
  length A = length B /\
  (forall i, length <$> A !! i = length <$> B !! i) /\
  forall i j,
    MoreRounding.cell B i j = MoreRounding.cell A i j \/
    (MoreRounding.cell B i j = Some 1%Z /\ (i < n)%nat /\
     is_Some (MoreRounding.cell A i j)).

(** A table and collaborators to evaluate the above: the graph has as many
    vertices as [g.v], backward vertices mirror the forward ones, and the
    table of precomputed solutions exists for every size but 0. *)
Definition toy_table : list RegRange :=
  [ mkRegRange 2 0 1 1; mkRegRange 3 0 2 1 ].

#[local] Instance toy_griewank : GriewankCollaborators :=
  {| size := fun g => length (v g);
     forward_to_backward := fun g p => (length (v g) - 1 - p)%nat;
     setup_implied_s_backwards := fun g S => S;
     load_griewank := fun n =>
       match n with
       | O => LoadRaised (OtherException "URLError" "no route to host")
       | _ => Loaded (Some toy_table)
       end |}.

End Griewank.

(** * Properties *)

(** ** The structural heuristics *)

Section ChenProperties.

(** Moving one position forward raises the quotient by [k] exactly at the
    multiples of [k]. *)
Lemma div_succ_step (k i : nat) :
  (0 < k)%nat ->
  (S i / k = i / k + (if (S i mod k =? 0)%nat then 1 else 0))%nat.
Proof.
  intros Hk.
  pose proof (Nat.div_mod_eq i k) as Hi.
  pose proof (Nat.mod_upper_bound i k ltac:(lia)) as Hr.
  set (q := (i / k)%nat) in *. set (r := (i mod k)%nat) in *.
  clearbody q r.
  destruct (decide (S r = k)) as [Heq | Hne].
  - assert (Hs : S i = (k * (q + 1) + 0)%nat).
    { rewrite Nat.mul_add_distr_l. lia. }
    rewrite <- (Nat.mod_unique (S i) k (q + 1) 0 Hk Hs).
    rewrite <- (Nat.div_unique (S i) k (q + 1) 0 Hk Hs).
    reflexivity.
  - assert (Hlt : (S r < k)%nat) by lia.
    assert (Hs : S i = (k * q + S r)%nat) by lia.
    rewrite <- (Nat.mod_unique (S i) k q (S r) Hlt Hs).
    rewrite <- (Nat.div_unique (S i) k q (S r) Hlt Hs).
    simpl. lia.
Qed.

Lemma every_kth_length (k : nat) (C : list nat) :
  (0 < k)%nat ->
  forall i, length (Chen.every_kth k i C) = ((i + length C) / k - i / k)%nat.
Proof.
  intros Hk. induction C as [| w C IH]; intros i.
  - simpl. rewrite Nat.add_0_r. lia.
  - assert (Hmono : (S i / k <= (S i + length C) / k)%nat).
    { apply Nat.Div0.div_le_mono. lia. }
    pose proof (div_succ_step k i Hk) as Hstep.
    cbn [Chen.every_kth length]. replace (i + 1)%nat with (S i) by lia.
    replace (i + S (length C))%nat with (S i + length C)%nat by lia.
    revert Hstep.
    destruct (S i mod k =? 0)%nat; intros Hstep; cbn [length]; rewrite IH; lia.
Qed.

Lemma every_kth_elem_of (k : nat) (C : list nat) (w : nat) :
  forall i,
    w ∈ Chen.every_kth k i C <->
    exists idx, C !! idx = Some w /\ ((i + idx + 1) mod k = 0)%nat.
Proof.
  induction C as [| u C IH]; intros i.
  - simpl. split.
    + intros Hin. inversion Hin.
    + intros (idx & Hl & _). destruct idx; discriminate.
  - simpl. destruct (Nat.eqb_spec ((i + 1) mod k) 0) as [Hz | Hnz].
    + rewrite elem_of_cons, IH. split.
      * intros [-> | (idx & Hl & Hm)].
        -- exists 0%nat. split; [reflexivity |]. rewrite Nat.add_0_r. exact Hz.
        -- exists (S idx). split; [exact Hl |].
           replace (i + S idx + 1)%nat with (S i + idx + 1)%nat by lia. exact Hm.
      * intros ([| idx] & Hl & Hm).
        -- left. simpl in Hl. congruence.
        -- right. exists idx. split; [exact Hl |].
           replace (S i + idx + 1)%nat with (i + S idx + 1)%nat by lia. exact Hm.
    + rewrite IH. split.
      * intros (idx & Hl & Hm). exists (S idx). split; [exact Hl |].
        replace (i + S idx + 1)%nat with (S i + idx + 1)%nat by lia. exact Hm.
      * intros ([| idx] & Hl & Hm).
        -- rewrite Nat.add_0_r in Hm. contradiction.
        -- exists idx. split; [exact Hl |].
           replace (S i + idx + 1)%nat with (i + S idx + 1)%nat by lia. exact Hm.
Qed.

Lemma every_kth_sublist (k : nat) (C : list nat) :
  forall i, sublist (Chen.every_kth k i C) C.
Proof.
  induction C as [| u C IH]; intros i; simpl.
  - constructor.
  - destruct ((i + 1) mod k =? 0)%nat.
    + apply sublist_skip, IH.
    + apply sublist_cons, IH.
Qed.

(** C7.  With [C] the eligible vertices, [m = len(C) >= 1] and
    [k = floor(sqrt(m))], [solve_chen_sqrtn] selects exactly the vertices at
    the 1-indexed positions that are multiples of [k]; there are
    [floor(m / k)] of them, which also is the size of the checkpoint set
    when the eligible vertices are pairwise distinct; for
    [m] in {1, 4, 9, 16, 100} that is 1, 2, 3, 4 and 10 checkpoints.  The
    result [solve_chen_sqrtn] returns is the schedule derived from the
    stored matrix of exactly that checkpoint set, which is never empty. *)
Theorem sqrtn_selects_every_kth `{Collaborators} (g : DFGraph)
    (use_actuation_points : bool) (elapsed : Time) :
  let C := Chen.eligible g use_actuation_points in
  let m := length C in
  let k := Nat.sqrt m in
  let selected := Chen.sqrtn_checkpoints g use_actuation_points in
  (1 <= m)%nat ->
  Chen.sqrtn_k C = k /\
  (forall w, w ∈ selected <->
     exists idx, C !! idx = Some w /\ ((idx + 1) mod k = 0)%nat) /\
  length selected = (m / k)%nat /\
  (NoDup C -> size (list_to_set selected : gset nat) = (m / k)%nat) /\
  (forall n, n ∈ [1; 2; 3; 4; 10]%nat -> m = (n * n)%nat -> length selected = n) /\
  exists cps : gset nat,
    (forall w, w ∈ cps <->
       exists idx, C !! idx = Some w /\ ((idx + 1) mod k = 0)%nat) /\
    (exists w, C !! (k - 1)%nat = Some w /\ w ∈ cps) /\
    (NoDup C -> size cps = (m / k)%nat) /\
    Chen.solve_chen_sqrtn g use_actuation_points elapsed =
      (let S := gen_s_matrix_fixed_checkpoints g cps in
       let R := solve_r_opt g S in
       mkResult (if use_actuation_points then CHEN_SQRTN else CHEN_SQRTN_NOAP)
         0 true (Some (schedule_from_rs g R S).1)
         (Some (schedule_from_rs g R S).2) elapsed None).
Proof.
  intros C m k selected Hm.
  assert (Hk : (0 < k)%nat).
  { unfold k. pose proof (Nat.sqrt_le_mono 1 m Hm) as Hs.
    change (Nat.sqrt 1) with 1%nat in Hs. lia. }
  assert (Hkm : (k <= m)%nat).
  { unfold k. apply Nat.sqrt_le_lin. }
  assert (Hlen : length selected = (m / k)%nat).
  { unfold selected, Chen.sqrtn_checkpoints. fold C. unfold Chen.sqrtn_k. fold m k.
    rewrite every_kth_length by exact Hk. fold m.
    rewrite (Nat.div_small 0 k Hk), Nat.sub_0_r, Nat.add_0_l. reflexivity. }
  assert (Hmem : forall w, w ∈ selected <->
            exists idx, C !! idx = Some w /\ ((idx + 1) mod k = 0)%nat).
  { intros w. unfold selected, Chen.sqrtn_checkpoints. fold C.
    unfold Chen.sqrtn_k. fold m k. rewrite every_kth_elem_of. simpl. reflexivity. }
  assert (Hsize : NoDup C -> size (list_to_set selected : gset nat) = (m / k)%nat).
  { intros Hnd. rewrite size_list_to_set.
    - exact Hlen.
    - assert (Hsub : sublist selected C) by apply every_kth_sublist.
      exact (sublist_NoDup _ _ Hnd Hsub). }
  split; [reflexivity |]. split; [exact Hmem |]. split; [exact Hlen |].
  split; [exact Hsize |]. split.
  - intros n Hn Hmn. rewrite Hlen. unfold k. rewrite Hmn.
    rewrite Nat.sqrt_square. apply Nat.div_mul.
    intros ->. simpl in Hmn. lia.
  - exists (list_to_set selected). split; [| split; [| split]].
    + intros w. rewrite elem_of_list_to_set. apply Hmem.
    + destruct (lookup_lt_is_Some_2 C (k - 1)%nat ltac:(fold m; lia)) as [w Hw].
      exists w. split; [exact Hw |].
      rewrite elem_of_list_to_set. apply Hmem. exists (k - 1)%nat.
      split; [exact Hw |].
      replace (k - 1 + 1)%nat with k by lia. apply Nat.Div0.mod_same.
    + exact Hsize.
    + unfold Chen.solve_chen_sqrtn. fold selected. cbv zeta.
      destruct (schedule_from_rs _ _ _) as [sched aux_data]. reflexivity.
Qed.

(** C7 at the chain of nine vertices: the third, sixth and ninth vertex,
    and the result is the schedule of the stored matrix that marks them. *)
Lemma sqrtn_selects_every_kth_witness :
  Chen.sqrtn_checkpoints (Fixture.chain 9) false = [2; 5; 8]%nat /\
  length (Chen.sqrtn_checkpoints (Fixture.chain 9) false) = (9 / Nat.sqrt 9)%nat /\
  schedule (@Chen.solve_chen_sqrtn Fixture.toy (Fixture.chain 9) false 0%Z)
    = Some [[0; 0; 1; 0; 0; 1; 0; 0; 1]%Z].
Proof.
  split; [reflexivity |].
  pose proof (@sqrtn_selects_every_kth Fixture.toy (Fixture.chain 9) false 0%Z)
    as Hthm.
  simpl in Hthm.
  destruct (Hthm ltac:(lia)) as (_ & _ & Hlen & _ & _ & cps & _ & _ & _ & Hres).
  split; [exact Hlen |].
  vm_compute. reflexivity.
Defined.

(** C3, as the specification states it: the chain of ten unit-cost
    vertices with [segment_mem_B = 3] does not yield {3, 6, 9}. *)
Lemma greedy_chain_not_3_6_9 :
  Chen.greedy_checkpoints (Fixture.chain 10) 3 false
  <> Some ({[ 3; 6; 9 ]}%nat : gset nat).
Proof. vm_compute. intros Heq. discriminate Heq. Qed.

(** C3, amended.  On the chain of ten unit-cost vertices with
    [segment_mem_B = 3] and every vertex eligible, the greedy walk
    checkpoints exactly {3, 7}: the running total is reset to zero at a
    checkpoint, the checkpointed vertex is not counted again, and the total
    first exceeds 3 four vertices later. *)
Theorem greedy_chain_checkpoints :
  Chen.greedy_checkpoints (Fixture.chain 10) 3 false
  = Some ({[ 3; 7 ]}%nat : gset nat).
Proof. vm_compute. reflexivity. Qed.

End ChenProperties.

(** ** The rounding strategies *)

Section RoundingProperties.
Context {C : Collaborators}.
Import Notions.

Variables (g : DFGraph) (budget : Z) (seed_s : option FMatrix) (approx : bool)
  (time_limit : option Z) (write_log_file : option string)
  (print_to_console : bool) (write_model_file : option string)
  (eps_noise : Q) (solver_cores : option Z).

Local Abbreviation sweep :=
  (ApproxLP.solve_approx_lp_deterministic_sweep g budget seed_s approx time_limit
     write_log_file print_to_console write_model_file eps_noise solver_cores).
Local Abbreviation rand_threshold :=
  (ApproxLP.solve_approx_lp_deterministic_rand_threshold g budget seed_s approx
     time_limit write_log_file print_to_console write_model_file eps_noise
     solver_cores).
Local Abbreviation half_threshold :=
  (ApproxLP.solve_approx_lp_deterministic_05_threshold g budget seed_s approx
     time_limit write_log_file print_to_console write_model_file eps_noise
     solver_cores).
Local Abbreviation randomized :=
  (ApproxLP.solve_approx_lp_randomized g budget seed_s approx time_limit
     write_log_file print_to_console write_model_file eps_noise solver_cores).
Local Abbreviation sweep_solver imposed :=
  (lpsolver_run
     (ApproxLP.sweep_lpsolver g budget seed_s approx time_limit write_log_file
        print_to_console write_model_file eps_noise solver_cores imposed)).
Local Abbreviation randomized_solver :=
  (lpsolver_run
     (ApproxLP.randomized_lpsolver g budget seed_s approx time_limit
        write_log_file print_to_console write_model_file eps_noise solver_cores)).
Local Abbreviation diagnostics run u free_e threshold :=
  (Some {| U := u; Free_E := free_e; ilp_approx := approx;
           ilp_time_limit := time_limit; ilp_eps_noise_used := eps_noise;
           ilp_num_constraints := numConstrs run;
           ilp_num_variables := numVars run;
           approx_deterministic_round_threshold := threshold |}).
Local Abbreviation empty_sweep := (ApproxLP.mkSweep None None None).
Local Abbreviation empty_round := (ApproxLP.mkRound ApproxLP.CostInf None None [] [] []).

(** *** What the entry points return, by outcome of the relaxation solve *)

Lemma sweep_solved thresholds imposed allow r s u free_e :
  outcome (sweep_solver imposed) = Solved r s u free_e ->
  sweep thresholds imposed allow =
    let st := ApproxLP.sweep_loop g budget allow s thresholds empty_sweep in
    Returns (mkResult APPROX_DET_ROUND_LP_SWEEP budget
               (bool_decide (ApproxLP.sw_aux_data st <> None))
               (ApproxLP.sw_schedule st) (ApproxLP.sw_aux_data st)
               (solve_time (sweep_solver imposed))
               (diagnostics (sweep_solver imposed) (Some u) (Some free_e)
                  (ApproxLP.sw_min_threshold st))).
Proof.
  intros Hout. unfold ApproxLP.solve_approx_lp_deterministic_sweep.
  rewrite Hout. reflexivity.
Qed.

Lemma sweep_value_error thresholds imposed allow msg :
  outcome (sweep_solver imposed) = Raised (ValueError msg) ->
  sweep thresholds imposed allow =
    Returns (mkResult APPROX_DET_ROUND_LP_SWEEP budget false None None
               (solve_time (sweep_solver imposed))
               (diagnostics (sweep_solver imposed) None None None)).
Proof.
  intros Hout. unfold ApproxLP.solve_approx_lp_deterministic_sweep.
  rewrite Hout. reflexivity.
Qed.

Lemma sweep_other_exception thresholds imposed allow cls msg :
  outcome (sweep_solver imposed) = Raised (OtherException cls msg) ->
  sweep thresholds imposed allow = Raises (OtherException cls msg).
Proof.
  intros Hout. unfold ApproxLP.solve_approx_lp_deterministic_sweep.
  rewrite Hout. reflexivity.
Qed.

Lemma randomized_solved num_rounds return_rounds rs r s u free_e :
  outcome randomized_solver = Solved r s u free_e ->
  randomized num_rounds return_rounds rs =
    let st := ApproxLP.round_loop g budget s (Z.to_nat num_rounds) (empty_round, rs) in
    let res :=
      mkResult APPROX_RANDOMIZED_ROUND budget true
        (ApproxLP.best_schedule st.1) (ApproxLP.best_aux_data st.1)
        (solve_time randomized_solver)
        (diagnostics randomized_solver (Some u) (Some free_e) None) in
    (Returns
       (if return_rounds
        then ApproxLP.ResultAndRounds res
               (ApproxLP.mkStats (ApproxLP.rounding_cpus st.1)
                  (ApproxLP.rounding_activation_rams st.1)
                  (ApproxLP.rounding_in_budgets st.1))
        else ApproxLP.ResultOnly res),
     st.2).
Proof.
  intros Hout. unfold ApproxLP.solve_approx_lp_randomized.
  rewrite Hout. reflexivity.
Qed.

Lemma randomized_value_error num_rounds return_rounds rs msg :
  outcome randomized_solver = Raised (ValueError msg) ->
  randomized num_rounds return_rounds rs =
    let res :=
      mkResult APPROX_RANDOMIZED_ROUND budget false None None
        (solve_time randomized_solver)
        (diagnostics randomized_solver None None None) in
    (Returns
       (if return_rounds
        then ApproxLP.ResultAndRounds res (ApproxLP.mkStats [] [] [])
        else ApproxLP.ResultOnly res),
     rs).
Proof.
  intros Hout. unfold ApproxLP.solve_approx_lp_randomized.
  rewrite Hout. reflexivity.
Qed.

Lemma randomized_other_exception num_rounds return_rounds rs cls msg :
  outcome randomized_solver = Raised (OtherException cls msg) ->
  randomized num_rounds return_rounds rs = (Raises (OtherException cls msg), rs).
Proof.
  intros Hout. unfold ApproxLP.solve_approx_lp_randomized.
  rewrite Hout. reflexivity.
Qed.

(** *** The sweep loop *)

Lemma sweep_loop_snoc allow s l t st :
  ApproxLP.sweep_loop g budget allow s (l ++ [t]) st =
  ApproxLP.sweep_step g budget allow s
    (ApproxLP.sweep_loop g budget allow s l st) t.
Proof. unfold ApproxLP.sweep_loop. rewrite fold_left_app. reflexivity. Qed.

Lemma sweep_loop_cons allow s l t st :
  ApproxLP.sweep_loop g budget allow s (t :: l) st =
  ApproxLP.sweep_loop g budget allow s l
    (ApproxLP.sweep_step g budget allow s st t).
Proof. reflexivity. Qed.

Lemma sweep_accepts_false_iff a best :
  ApproxLP.sweep_accepts budget false a best = true <->
  within budget a /\ (forall b, best = Some b -> (cpu a <= cpu b)%Z).
Proof.
  unfold ApproxLP.sweep_accepts, within. simpl.
  rewrite andb_true_iff, Z.leb_le.
  destruct best as [b |]; simpl.
  - rewrite Z.leb_le. split.
    + intros [Hr Hc]. split; [exact Hr |]. intros b' Hb. congruence.
    + intros [Hr Hc]. split; [exact Hr |]. apply Hc. reflexivity.
  - split.
    + intros [Hr _]. split; [exact Hr |]. intros b' Hb. discriminate.
    + intros [Hr _]. split; [exact Hr | reflexivity].
Qed.

Lemma sweep_accepts_first a :
  ApproxLP.sweep_accepts budget true a None = true.
Proof. reflexivity. Qed.

Lemma sweep_accepts_later allow a b :
  ApproxLP.sweep_accepts budget allow a (Some b) =
  (activation_ram a <=? budget)%Z && (cpu a <=? cpu b)%Z.
Proof.
  unfold ApproxLP.sweep_accepts.
  rewrite bool_decide_eq_false_2 by discriminate.
  rewrite andb_false_r. reflexivity.
Qed.

Lemma sweep_step_keeps_some allow s st t :
  ApproxLP.sw_aux_data st <> None ->
  ApproxLP.sw_aux_data (ApproxLP.sweep_step g budget allow s st t) <> None.
Proof.
  intros Hsome. unfold ApproxLP.sweep_step.
  destruct (ApproxLP.sweep_accepts _ _ _ _); [discriminate | exact Hsome].
Qed.

Lemma sweep_loop_keeps_some allow s l :
  forall st,
    ApproxLP.sw_aux_data st <> None ->
    ApproxLP.sw_aux_data (ApproxLP.sweep_loop g budget allow s l st) <> None.
Proof.
  induction l as [| t l IH]; intros st Hsome.
  - exact Hsome.
  - rewrite sweep_loop_cons. apply IH, sweep_step_keeps_some, Hsome.
Qed.

(** In the allow-infeasible mode a candidate is held as soon as one
    threshold has been tried. *)
Lemma sweep_loop_allow_some s l :
  l <> [] ->
  ApproxLP.sw_aux_data (ApproxLP.sweep_loop g budget true s l empty_sweep) <> None.
Proof.
  destruct l as [| t l]; [congruence |]. intros _.
  rewrite sweep_loop_cons. apply sweep_loop_keeps_some.
  unfold ApproxLP.sweep_step. cbn [ApproxLP.sw_aux_data].
  rewrite sweep_accepts_first. cbn [ApproxLP.sw_aux_data]. discriminate.
Qed.

(** Without the allow-infeasible mode the sweep keeps the last of the
    cheapest candidates that fit the budget. *)
Lemma sweep_loop_selects s l :
  selects_last_cheapest g budget s l
    (ApproxLP.sweep_loop g budget false s l empty_sweep).
Proof.
  induction l as [| t l IH] using rev_ind.
  - split; [reflexivity |]. intros i t Hl. rewrite lookup_nil in Hl. discriminate.
  - rewrite sweep_loop_snoc.
    set (st := ApproxLP.sweep_loop g budget false s l empty_sweep) in *.
    unfold ApproxLP.sweep_step.
    change (ApproxLP.candidate g (binarize s t)).2 with (stats_at g s t).
    assert (Hlast : forall i t', (l ++ [t]) !! i = Some t' ->
              (i < length l)%nat /\ l !! i = Some t' \/ i = length l /\ t' = t).
    { intros i t' Hl. destruct (decide (i < length l)%nat) as [Hlt | Hge].
      - left. split; [exact Hlt |]. rewrite lookup_app_l in Hl by exact Hlt. exact Hl.
      - right. rewrite lookup_app_r in Hl by lia.
        destruct (i - length l)%nat as [| n] eqn:Hn; simpl in Hl.
        + split; [lia | congruence].
        + rewrite lookup_nil in Hl. discriminate. }
    destruct (ApproxLP.sweep_accepts budget false (stats_at g s t)
                (ApproxLP.sw_aux_data st)) eqn:Hacc.
    + apply sweep_accepts_false_iff in Hacc as [Hw Hcpu].
      exists (length l), t. split; [apply list_lookup_middle; reflexivity |].
      split; [reflexivity |]. split; [exact Hw |].
      intros i t' Hl Hw'. destruct (Hlast i t' Hl) as [[Hlt Hli] | [-> ->]].
      * unfold selects_last_cheapest in IH.
        destruct (ApproxLP.sw_aux_data st) as [b |] eqn:Hb.
        -- destruct IH as (j & tj & Hj & Hst & Hwj & Hall).
           rewrite Hst in Hb. simpl in Hb. injection Hb as <-.
           destruct (Hall i t' Hli Hw') as [Hle _].
           pose proof (Hcpu _ eq_refl) as Hc. split; lia.
        -- destruct IH as [_ Hnone]. exfalso. exact (Hnone i t' Hli Hw').
      * split; lia.
    + assert (Hrej : ~ (within budget (stats_at g s t) /\
                        forall b, ApproxLP.sw_aux_data st = Some b ->
                                  (cpu (stats_at g s t) <= cpu b)%Z)).
      { rewrite <- sweep_accepts_false_iff, Hacc. discriminate. }
      unfold selects_last_cheapest in *.
      destruct (ApproxLP.sw_aux_data st) as [b |] eqn:Hb.
      * destruct IH as (j & tj & Hj & Hst & Hwj & Hall).
        exists j, tj. split.
        { rewrite lookup_app_l; [exact Hj |]. eapply lookup_lt_Some, Hj. }
        split; [exact Hst |]. split; [exact Hwj |].
        intros i t' Hl Hw'. destruct (Hlast i t' Hl) as [[Hlt Hli] | [-> ->]].
        -- exact (Hall i t' Hli Hw').
        -- rewrite Hst in Hb. simpl in Hb. injection Hb as <-.
           assert (Hgt : (cpu (stats_at g s tj) < cpu (stats_at g s t))%Z).
           { destruct (Z.le_gt_cases (cpu (stats_at g s t)) (cpu (stats_at g s tj)))
               as [Hle | Hgt]; [| lia].
             exfalso. apply Hrej. split; [exact Hw' |].
             intros b' Hb'. injection Hb' as <-. exact Hle. }
           split; lia.
      * destruct IH as [Hst Hnone]. split; [exact Hst |].
        intros i t' Hl Hw'. destruct (Hlast i t' Hl) as [[Hlt Hli] | [-> ->]].
        -- exact (Hnone i t' Hli Hw').
        -- apply Hrej. split; [exact Hw' |]. intros b' Hb'. discriminate.
Qed.

(** Whatever the sweep holds without the allow-infeasible mode fits the
    budget. *)
Lemma sweep_loop_within s l a :
  ApproxLP.sw_aux_data (ApproxLP.sweep_loop g budget false s l empty_sweep) = Some a ->
  within budget a /\
  is_Some (ApproxLP.sw_schedule (ApproxLP.sweep_loop g budget false s l empty_sweep)).
Proof.
  intros Ha. pose proof (sweep_loop_selects s l) as Hsel.
  unfold selects_last_cheapest in Hsel. rewrite Ha in Hsel.
  destruct Hsel as (j & tj & _ & Hst & Hw & _).
  rewrite Hst in Ha |- *. simpl in *. injection Ha as <-.
  split; [exact Hw | eexists; reflexivity].
Qed.

(** Nothing is held when every candidate is over budget. *)
Lemma sweep_loop_none s l :
  (forall i t, l !! i = Some t -> ~ within budget (stats_at g s t)) ->
  ApproxLP.sweep_loop g budget false s l empty_sweep = empty_sweep.
Proof.
  intros Hover. pose proof (sweep_loop_selects s l) as Hsel.
  unfold selects_last_cheapest in Hsel.
  destruct (ApproxLP.sw_aux_data _) as [b |] eqn:Hb.
  - destruct Hsel as (j & tj & Hj & _ & Hw & _). exfalso. exact (Hover j tj Hj Hw).
  - destruct Hsel as [Hst _]. exact Hst.
Qed.

(** *** The loop of the randomized rounding *)

Lemma round_loop_succ s n st :
  ApproxLP.round_loop g budget s (S n) st =
  ApproxLP.round_loop g budget s n (ApproxLP.round_step g budget s st).
Proof. reflexivity. Qed.

Lemma round_step_state s st rs :
  (ApproxLP.round_step g budget s (st, rs)).2 =
  (np_random_rand (shape s).1 (shape s).2 rs).2.
Proof.
  unfold ApproxLP.round_step. cbn [fst snd].
  destruct (_ && _); reflexivity.
Qed.




Lemma round_step_invariant s st rs :
  round_invariant budget st ->
  round_invariant budget (ApproxLP.round_step g budget s (st, rs)).1.
Proof.
  intros (Hbest & Hnone & Hflags). unfold ApproxLP.round_step. cbn [fst snd].
  set (c := ApproxLP.candidate g _).
  destruct (activation_ram c.2 <=? budget)%Z eqn:Hram; cbn [andb].
  - destruct (ApproxLP.round_improves c.2 st); cbn [fst].
    + split; [| split]; cbn.
      * intros a [= <-]. apply Z.leb_le, Hram.
      * discriminate.
      * rewrite map_app, Hflags. cbn. rewrite Hram. reflexivity.
    + split; [| split]; cbn.
      * exact Hbest.
      * exact Hnone.
      * rewrite map_app, Hflags. cbn. rewrite Hram. reflexivity.
  - split; [| split]; cbn.
    + exact Hbest.
    + exact Hnone.
    + rewrite map_app, Hflags. cbn. rewrite Hram. reflexivity.
Qed.

Lemma round_loop_invariant s n :
  forall st rs,
    round_invariant budget st ->
    round_invariant budget (ApproxLP.round_loop g budget s n (st, rs)).1.
Proof.
  induction n as [| n IH]; intros st rs Hinv.
  - exact Hinv.
  - rewrite round_loop_succ.
    rewrite (surjective_pairing (ApproxLP.round_step g budget s (st, rs))).
    apply IH, round_step_invariant, Hinv.
Qed.

Lemma empty_round_invariant : round_invariant budget empty_round.
Proof. split; [| split]; cbn; [discriminate | reflexivity | reflexivity]. Qed.

(** Every round that stays over budget leaves the best solution empty. *)
Lemma round_step_over_budget s st rs :
  ApproxLP.best_aux_data st = None ->
  ApproxLP.best_schedule st = None ->
  ~ within budget
      (ApproxLP.candidate g
         (bernoulli (np_random_rand (shape s).1 (shape s).2 rs).1 s)).2 ->
  ApproxLP.best_aux_data (ApproxLP.round_step g budget s (st, rs)).1 = None /\
  ApproxLP.best_schedule (ApproxLP.round_step g budget s (st, rs)).1 = None.
Proof.
  intros Ha Hs Hover. unfold ApproxLP.round_step. cbn [fst snd].
  set (c := ApproxLP.candidate g _) in *.
  destruct (activation_ram c.2 <=? budget)%Z eqn:Hram.
  - exfalso. apply Hover, Z.leb_le, Hram.
  - cbn. split; assumption.
Qed.

(** *** The feasibility flag *)

Lemma sweep_feasible_within thresholds imposed res :
  sweep thresholds imposed false = Returns res ->
  feasible res = true ->
  exists a, schedule_aux_data res = Some a /\ is_Some (schedule res) /\
            within budget a.
Proof.
  intros Hres Hf.
  destruct (outcome (sweep_solver imposed)) as [r s u fe | [msg | cls msg]] eqn:Hout.
  - rewrite (sweep_solved _ _ _ _ _ _ _ Hout) in Hres. cbv zeta in Hres.
    injection Hres as <-. cbn in Hf |- *. apply bool_decide_eq_true in Hf.
    destruct (ApproxLP.sw_aux_data _) as [a |] eqn:Ha; [| congruence].
    destruct (sweep_loop_within s thresholds a Ha) as [Hw Hs].
    exists a. split; [reflexivity | split; assumption].
  - rewrite (sweep_value_error _ _ _ _ Hout) in Hres. injection Hres as <-.
    discriminate Hf.
  - rewrite (sweep_other_exception _ _ _ _ _ Hout) in Hres. discriminate Hres.
Qed.

Lemma randomized_schedule_within num_rounds return_rounds rs ret a :
  (randomized num_rounds return_rounds rs).1 = Returns ret ->
  schedule_aux_data (ApproxLP.returned_result ret) = Some a ->
  within budget a.
Proof.
  intros Hret Ha.
  destruct (outcome randomized_solver) as [r s u fe | [msg | cls msg]] eqn:Hout.
  - rewrite (randomized_solved _ _ _ _ _ _ _ Hout) in Hret. cbv zeta in Hret.
    cbn [fst] in Hret. injection Hret as <-.
    destruct (round_loop_invariant s (Z.to_nat num_rounds) empty_round rs
                empty_round_invariant) as (Hbest & _ & _).
    apply Hbest. destruct return_rounds; exact Ha.
  - rewrite (randomized_value_error _ _ _ _ Hout) in Hret. cbv zeta in Hret.
    cbn [fst] in Hret. injection Hret as <-.
    destruct return_rounds; discriminate Ha.
  - rewrite (randomized_other_exception _ _ _ _ _ Hout) in Hret.
    discriminate Hret.
Qed.

Lemma sweep_allow_feasible_iff thresholds imposed res :
  sweep thresholds imposed true = Returns res ->
  (feasible res = true <->
   (exists r s u free_e, outcome (sweep_solver imposed) = Solved r s u free_e) /\
   thresholds <> []).
Proof.
  intros Hres.
  destruct (outcome (sweep_solver imposed)) as [r s u fe | [msg | cls msg]] eqn:Hout.
  - rewrite (sweep_solved _ _ _ _ _ _ _ Hout) in Hres. cbv zeta in Hres.
    injection Hres as <-. cbn [feasible]. rewrite bool_decide_eq_true. split.
    + intros Hsome. split; [eauto |]. intros ->. apply Hsome. reflexivity.
    + intros [_ Hne]. apply sweep_loop_allow_some, Hne.
  - rewrite (sweep_value_error _ _ _ _ Hout) in Hres. injection Hres as <-.
    cbn [feasible]. split; [discriminate |].
    intros [(r & s & u & fe & Hs) _]. discriminate Hs.
  - rewrite (sweep_other_exception _ _ _ _ _ Hout) in Hres. discriminate Hres.
Qed.

(** C1, amended.  Without the allow-infeasible mode (the sweep, the single
    0.5 threshold, the random thresholds) a result flagged feasible carries a
    schedule whose [activation_ram] is at most the budget; a schedule
    returned by the randomized rounding is always within the budget.  In the
    allow-infeasible mode the flag is set exactly when the relaxation was
    solved and at least one threshold was tried: it records that a
    candidate was accepted, not that the candidate fits the budget. *)
Theorem feasible_flag_contract thresholds imposed n_samples num_rounds
    return_rounds rs :
  (forall res, sweep thresholds imposed false = Returns res ->
     feasible res = true ->
     exists a, schedule_aux_data res = Some a /\ is_Some (schedule res) /\
               within budget a) /\
  (forall res, half_threshold n_samples false = Returns res ->
     feasible res = true ->
     exists a, schedule_aux_data res = Some a /\ is_Some (schedule res) /\
               within budget a) /\
  (forall res, (rand_threshold n_samples rs).1 = Returns res ->
     feasible res = true ->
     exists a, schedule_aux_data res = Some a /\ is_Some (schedule res) /\
               within budget a) /\
  (forall ret a, (randomized num_rounds return_rounds rs).1 = Returns ret ->
     schedule_aux_data (ApproxLP.returned_result ret) = Some a ->
     within budget a) /\
  (forall res, sweep thresholds imposed true = Returns res ->
     (feasible res = true <->
      (exists r s u free_e,
          outcome (sweep_solver imposed) = Solved r s u free_e) /\
      thresholds <> [])).
Proof.
  split; [| split; [| split; [| split]]].
  - apply sweep_feasible_within.
  - intros res. apply sweep_feasible_within.
  - intros res. apply sweep_feasible_within.
  - intros ret a. apply randomized_schedule_within.
  - apply sweep_allow_feasible_iff.
Qed.

(** Without the allow-infeasible mode the sweep reports infeasibility with
    no schedule when every candidate is over budget. *)
Lemma sweep_all_over_budget thresholds imposed r s u free_e :
  outcome (sweep_solver imposed) = Solved r s u free_e ->
  (forall i t, thresholds !! i = Some t -> ~ within budget (stats_at g s t)) ->
  sweep thresholds imposed false =
    Returns (mkResult APPROX_DET_ROUND_LP_SWEEP budget false None None
               (solve_time (sweep_solver imposed))
               (diagnostics (sweep_solver imposed) (Some u) (Some free_e) None)).
Proof.
  intros Hout Hover. rewrite (sweep_solved _ _ _ _ _ _ _ Hout). cbv zeta.
  rewrite (sweep_loop_none s thresholds Hover). reflexivity.
Qed.

Lemma round_loop_over_budget s n :
  forall st rs,
    ApproxLP.best_aux_data st = None ->
    ApproxLP.best_schedule st = None ->
    Forall (fun d => ~ within budget (ApproxLP.candidate g (bernoulli d s)).2)
      (rand_draws (shape s).1 (shape s).2 n rs) ->
    ApproxLP.best_aux_data (ApproxLP.round_loop g budget s n (st, rs)).1 = None /\
    ApproxLP.best_schedule (ApproxLP.round_loop g budget s n (st, rs)).1 = None.
Proof.
  induction n as [| n IH]; intros st rs Ha Hs Hover.
  - split; assumption.
  - cbn [rand_draws] in Hover. apply Forall_cons in Hover as [Hhd Htl].
    destruct (round_step_over_budget s st rs Ha Hs Hhd) as [Ha' Hs'].
    rewrite round_loop_succ.
    rewrite (surjective_pairing (ApproxLP.round_step g budget s (st, rs))).
    rewrite round_step_state. apply IH; assumption.
Qed.

(** When the relaxation is solved and every round is over budget, the
    randomized rounding returns no schedule and flags the result feasible. *)
Lemma randomized_all_over_budget num_rounds return_rounds rs r s u free_e :
  outcome randomized_solver = Solved r s u free_e ->
  Forall (fun d => ~ within budget (ApproxLP.candidate g (bernoulli d s)).2)
    (rand_draws (shape s).1 (shape s).2 (Z.to_nat num_rounds) rs) ->
  exists ret,
    (randomized num_rounds return_rounds rs).1 = Returns ret /\
    feasible (ApproxLP.returned_result ret) = true /\
    schedule (ApproxLP.returned_result ret) = None /\
    schedule_aux_data (ApproxLP.returned_result ret) = None.
Proof.
  intros Hout Hover. rewrite (randomized_solved _ _ _ _ _ _ _ Hout). cbv zeta.
  cbn [fst].
  destruct (round_loop_over_budget s (Z.to_nat num_rounds) empty_round rs
              eq_refl eq_refl Hover) as [Ha Hs].
  eexists. split; [reflexivity |].
  destruct return_rounds; cbn; rewrite Ha, Hs; repeat split; reflexivity.
Qed.

(** The randomized rounding copies the outcome of the relaxation solve into
    the flag, whatever the rounds found. *)
Lemma randomized_flag_is_lp_feasible num_rounds return_rounds rs r s u free_e ret :
  outcome randomized_solver = Solved r s u free_e ->
  (randomized num_rounds return_rounds rs).1 = Returns ret ->
  feasible (ApproxLP.returned_result ret) = true.
Proof.
  intros Hout Hret. rewrite (randomized_solved _ _ _ _ _ _ _ Hout) in Hret.
  cbv zeta in Hret. cbn [fst] in Hret. injection Hret as <-.
  destruct return_rounds; reflexivity.
Qed.

(** *** The single threshold *)

(** The sweep over one threshold, spelled out: the candidate of that
    threshold is kept when it fits the budget, or in any case in the
    allow-infeasible mode, and the flag says that a candidate was kept. *)
Lemma sweep_single_threshold t imposed allow r s u free_e :
  outcome (sweep_solver imposed) = Solved r s u free_e ->
  let c := ApproxLP.candidate g (binarize s t) in
  let kept := allow || (activation_ram c.2 <=? budget)%Z in
  sweep [t] imposed allow =
    Returns (mkResult APPROX_DET_ROUND_LP_SWEEP budget kept
               (if kept then Some c.1 else None)
               (if kept then Some c.2 else None)
               (solve_time (sweep_solver imposed))
               (diagnostics (sweep_solver imposed) (Some u) (Some free_e)
                  (if kept then Some t else None))).
Proof.
  intros Hout c kept. rewrite (sweep_solved _ _ _ _ _ _ _ Hout). cbv zeta.
  unfold ApproxLP.sweep_loop. cbn [fold_left]. unfold ApproxLP.sweep_step.
  cbn [ApproxLP.sw_aux_data]. unfold ApproxLP.sweep_accepts, ApproxLP.cpu_not_worse.
  rewrite (bool_decide_eq_true_2 (@None SchedulerAuxData = None)) by reflexivity.
  rewrite !andb_true_r. fold c. fold kept.
  destruct kept; reflexivity.
Qed.

(** C9.  [solve_approx_lp_deterministic_05_threshold] returns what the
    sweep returns for the one threshold 0.5 (with the sweep's default
    [imposed_schedule]; [n_samples] plays no role).  Spelled out, when the
    relaxation is solved it returns the candidate of 0.5 if that candidate
    fits the budget or the allow-infeasible mode is on, and nothing
    otherwise.  It coincides with the single-threshold rounding as the
    specification words it except in the two situations where the sweep
    itself departs from those words: an over-budget candidate kept in the
    allow-infeasible mode (flagged feasible by the code) and a solver
    exception that is not a [ValueError] (raised by the code). *)
Theorem half_threshold_is_single_threshold_sweep n_samples allow :
  half_threshold n_samples allow = sweep [1 # 2] FULL_SCHEDULE allow /\
  (forall r s u free_e,
     outcome (sweep_solver FULL_SCHEDULE) = Solved r s u free_e ->
     let c := ApproxLP.candidate g (binarize s (1 # 2)) in
     let kept := allow || (activation_ram c.2 <=? budget)%Z in
     half_threshold n_samples allow =
       Returns (mkResult APPROX_DET_ROUND_LP_SWEEP budget kept
                  (if kept then Some c.1 else None)
                  (if kept then Some c.2 else None)
                  (solve_time (sweep_solver FULL_SCHEDULE))
                  (diagnostics (sweep_solver FULL_SCHEDULE) (Some u) (Some free_e)
                     (if kept then Some (1 # 2) else None)))) /\
  (half_threshold n_samples allow =
     single_half_threshold g budget seed_s approx time_limit write_log_file
       print_to_console write_model_file eps_noise solver_cores allow
   <->
   match outcome (sweep_solver FULL_SCHEDULE) with
   | Solved r s u free_e => allow = false \/ within budget (stats_at g s (1 # 2))
   | Raised (ValueError _) => True
   | Raised (OtherException _ _) => False
   end).
Proof.
  split; [reflexivity |]. split.
  - intros r s u fe Hout. exact (sweep_single_threshold (1 # 2) FULL_SCHEDULE allow
                                   r s u fe Hout).
  - unfold ApproxLP.solve_approx_lp_deterministic_05_threshold.
    destruct (outcome (sweep_solver FULL_SCHEDULE))
      as [r s u fe | [msg | cls msg]] eqn:Hout.
    + rewrite (sweep_single_threshold (1 # 2) FULL_SCHEDULE allow r s u fe Hout).
      cbv zeta. unfold single_half_threshold. rewrite Hout. cbv zeta.
      unfold within, stats_at.
      set (c := ApproxLP.candidate g (binarize s (1 # 2))).
      destruct (activation_ram c.2 <=? budget)%Z eqn:Hfits.
      * rewrite orb_true_r. split; [| reflexivity].
        intros _. right. apply Z.leb_le, Hfits.
      * apply Z.leb_gt in Hfits. destruct allow; cbn [orb].
        -- split.
           ++ intros Heq. injection Heq as Hflag. discriminate Hflag.
           ++ intros [Hallow | Hle]; [discriminate Hallow | lia].
        -- split; [| reflexivity]. intros _. left. reflexivity.
    + rewrite (sweep_value_error _ _ _ _ Hout).
      unfold single_half_threshold. rewrite Hout. split; [| reflexivity].
      intros _. exact I.
    + rewrite (sweep_other_exception _ _ _ _ _ Hout).
      unfold single_half_threshold. rewrite Hout. split.
      * intros Heq. discriminate Heq.
      * intros [].
Qed.

(** *** The allow-infeasible mode *)

Lemma allow_first_candidate s t :
  ApproxLP.sweep_step g budget true s empty_sweep t =
  ApproxLP.mkSweep (Some (ApproxLP.candidate g (binarize s t)).1)
    (Some (stats_at g s t)) (Some t).
Proof. reflexivity. Qed.

Lemma allow_later_candidate s t sched b thr :
  ApproxLP.sweep_step g budget true s (ApproxLP.mkSweep sched (Some b) thr) t =
  if (activation_ram (stats_at g s t) <=? budget)%Z
     && (cpu (stats_at g s t) <=? cpu b)%Z
  then ApproxLP.mkSweep (Some (ApproxLP.candidate g (binarize s t)).1)
         (Some (stats_at g s t)) (Some t)
  else ApproxLP.mkSweep sched (Some b) thr.
Proof.
  unfold ApproxLP.sweep_step. cbn [ApproxLP.sw_aux_data].
  rewrite sweep_accepts_later. reflexivity.
Qed.

(** *** Ties between candidates *)

(** A round that fits the budget and costs no more than the best so far
    replaces it; an equal cost is enough. *)
Lemma round_step_replaces s st rs k :
  let c := ApproxLP.candidate g
             (bernoulli (np_random_rand (shape s).1 (shape s).2 rs).1 s) in
  ApproxLP.best_cost st = ApproxLP.CostOf k ->
  within budget c.2 ->
  (cpu c.2 <= k)%Z ->
  ApproxLP.best_aux_data (ApproxLP.round_step g budget s (st, rs)).1 = Some c.2 /\
  ApproxLP.best_schedule (ApproxLP.round_step g budget s (st, rs)).1 = Some c.1.
Proof.
  intros c Hcost Hw Hle. unfold ApproxLP.round_step. cbn [fst snd]. fold c.
  assert (Hram : (activation_ram c.2 <=? budget)%Z = true) by (apply Z.leb_le, Hw).
  assert (Himp : ApproxLP.round_improves c.2 st = true).
  { unfold ApproxLP.round_improves. rewrite Hcost. cbn.
    destruct (ApproxLP.best_aux_data st); [apply Z.leb_le, Hle | reflexivity]. }
  rewrite Hram, Himp. cbn. split; reflexivity.
Qed.

(** C4, amended.  Among the candidates that fit the budget the sweep
    returns one of minimal cpu, and of several with that cpu it returns the
    one found last: every candidate of equal cpu sits at a position no later
    than the returned one, so for an ascending sweep the reported threshold
    is the highest threshold achieving the best cpu.  The randomized
    rounding likewise replaces its best solution by a later round of equal
    cpu. *)
Theorem sweep_keeps_latest_of_equal_cost thresholds imposed r s u free_e res :
  outcome (sweep_solver imposed) = Solved r s u free_e ->
  sweep thresholds imposed false = Returns res ->
  (exists i t, thresholds !! i = Some t /\ within budget (stats_at g s t)) ->
  (exists j tj,
     thresholds !! j = Some tj /\
     schedule res = Some (ApproxLP.candidate g (binarize s tj)).1 /\
     schedule_aux_data res = Some (stats_at g s tj) /\
     approx_deterministic_round_threshold <$> ilp_aux_data res = Some (Some tj) /\
     within budget (stats_at g s tj) /\
     forall i t, thresholds !! i = Some t -> within budget (stats_at g s t) ->
       (cpu (stats_at g s tj) <= cpu (stats_at g s t))%Z /\
       (cpu (stats_at g s t) = cpu (stats_at g s tj) ->
        (i <= j)%nat /\ (ascending thresholds -> Qle t tj))) /\
  (forall st rs k,
     let c := ApproxLP.candidate g
                (bernoulli (np_random_rand (shape s).1 (shape s).2 rs).1 s) in
     ApproxLP.best_cost st = ApproxLP.CostOf k ->
     within budget c.2 ->
     cpu c.2 = k ->
     ApproxLP.best_aux_data (ApproxLP.round_step g budget s (st, rs)).1 = Some c.2 /\
     ApproxLP.best_schedule (ApproxLP.round_step g budget s (st, rs)).1 = Some c.1).
Proof.
  intros Hout Hres (i0 & t0 & Hl0 & Hw0). split.
  - rewrite (sweep_solved _ _ _ _ _ _ _ Hout) in Hres. cbv zeta in Hres.
    injection Hres as <-. cbn.
    pose proof (sweep_loop_selects s thresholds) as Hsel.
    unfold selects_last_cheapest in Hsel.
    destruct (ApproxLP.sw_aux_data _) as [b |] eqn:Hb.
    + destruct Hsel as (j & tj & Hj & Hst & Hwj & Hall).
      rewrite Hst in Hb. cbn in Hb. injection Hb as <-.
      exists j, tj. rewrite Hst. cbn.
      split; [exact Hj |]. do 3 (split; [reflexivity |]). split; [exact Hwj |].
      intros i t Hl Hw. destruct (Hall i t Hl Hw) as [Hle Htie].
      split; [exact Hle |]. intros Heq. split; [exact (Htie Heq) |].
      intros Hasc. exact (Hasc i j t tj (Htie Heq) Hl Hj).
    + destruct Hsel as [_ Hnone]. exfalso. exact (Hnone i0 t0 Hl0 Hw0).
  - intros st rs k c Hcost Hw Hk.
    apply (round_step_replaces s st rs k Hcost Hw). apply Z.eq_le_incl, Hk.
Qed.

(** *** Failure of the relaxation solve *)

(** C5, amended.  When [solve()] raises a [ValueError] every entry point
    returns a result with [feasible = False], no schedule and no statistics,
    without rounding anything (the randomized rounding records no round and
    leaves the generator untouched).  An exception of any other class is
    not caught: it reaches the caller. *)
Theorem solver_value_error_is_reported thresholds imposed allow n_samples
    num_rounds return_rounds rs :
  (forall msg,
     outcome (sweep_solver imposed) = Raised (ValueError msg) ->
     sweep thresholds imposed allow =
       Returns (mkResult APPROX_DET_ROUND_LP_SWEEP budget false None None
                  (solve_time (sweep_solver imposed))
                  (diagnostics (sweep_solver imposed) None None None))) /\
  (forall msg,
     outcome (sweep_solver FULL_SCHEDULE) = Raised (ValueError msg) ->
     let failed :=
       Returns (mkResult APPROX_DET_ROUND_LP_SWEEP budget false None None
                  (solve_time (sweep_solver FULL_SCHEDULE))
                  (diagnostics (sweep_solver FULL_SCHEDULE) None None None)) in
     half_threshold n_samples allow = failed /\
     (rand_threshold n_samples rs).1 = failed) /\
  (forall msg,
     outcome randomized_solver = Raised (ValueError msg) ->
     let failed :=
       mkResult APPROX_RANDOMIZED_ROUND budget false None None
         (solve_time randomized_solver)
         (diagnostics randomized_solver None None None) in
     randomized num_rounds return_rounds rs =
       (Returns (if return_rounds
                 then ApproxLP.ResultAndRounds failed (ApproxLP.mkStats [] [] [])
                 else ApproxLP.ResultOnly failed),
        rs)) /\
  (forall cls msg,
     outcome (sweep_solver imposed) = Raised (OtherException cls msg) ->
     sweep thresholds imposed allow = Raises (OtherException cls msg)) /\
  (forall cls msg,
     outcome randomized_solver = Raised (OtherException cls msg) ->
     randomized num_rounds return_rounds rs =
       (Raises (OtherException cls msg), rs)).
Proof.
  split; [| split; [| split; [| split]]].
  - intros msg Hout. exact (sweep_value_error _ _ _ _ Hout).
  - intros msg Hout failed. split.
    + exact (sweep_value_error _ _ _ _ Hout).
    + exact (sweep_value_error _ _ _ _ Hout).
  - intros msg Hout. exact (randomized_value_error _ _ _ _ Hout).
  - intros cls msg Hout. exact (sweep_other_exception _ _ _ _ _ Hout).
  - intros cls msg Hout. exact (randomized_other_exception _ _ _ _ _ Hout).
Qed.

(** *** The budget handed to the relaxation solver *)

Lemma int_09_fixpoint (b : Z) : int_09 b = b <-> b = 0%Z.
Proof.
  unfold int_09. split.
  - intros Hq. Z.to_euclidean_division_equations. lia.
  - intros ->. reflexivity.
Qed.

(** Replacing the relaxation solver by one that agrees with it on the
    solver objects of budget [int(0.9 * budget)] changes nothing. *)
Lemma sweep_solver_agreement (run1 run2 : ILPSolver -> LPRun (@Time C))
    thresholds imposed allow :
  (forall solver, ilp_budget solver = int_09 budget -> run1 solver = run2 solver) ->
  @ApproxLP.solve_approx_lp_deterministic_sweep (with_lpsolver C run1)
    g budget seed_s approx time_limit write_log_file print_to_console
    write_model_file eps_noise solver_cores thresholds imposed allow
  = @ApproxLP.solve_approx_lp_deterministic_sweep (with_lpsolver C run2)
      g budget seed_s approx time_limit write_log_file print_to_console
      write_model_file eps_noise solver_cores thresholds imposed allow.
Proof.
  intros Hagree. unfold ApproxLP.solve_approx_lp_deterministic_sweep.
  cbn [lpsolver_run with_lpsolver].
  rewrite (Hagree
             (ApproxLP.sweep_lpsolver g budget seed_s approx time_limit
                write_log_file print_to_console write_model_file eps_noise
                solver_cores imposed) eq_refl).
  reflexivity.
Qed.

Lemma randomized_solver_agreement (run1 run2 : ILPSolver -> LPRun (@Time C))
    num_rounds return_rounds (rs : @RandomState C) :
  (forall solver, ilp_budget solver = int_09 budget -> run1 solver = run2 solver) ->
  @ApproxLP.solve_approx_lp_randomized (with_lpsolver C run1)
    g budget seed_s approx time_limit write_log_file print_to_console
    write_model_file eps_noise solver_cores num_rounds return_rounds rs
  = @ApproxLP.solve_approx_lp_randomized (with_lpsolver C run2)
      g budget seed_s approx time_limit write_log_file print_to_console
      write_model_file eps_noise solver_cores num_rounds return_rounds rs.
Proof.
  intros Hagree. unfold ApproxLP.solve_approx_lp_randomized.
  cbn [lpsolver_run with_lpsolver].
  rewrite (Hagree
             (ApproxLP.randomized_lpsolver g budget seed_s approx time_limit
                write_log_file print_to_console write_model_file eps_noise
                solver_cores) eq_refl).
  reflexivity.
Qed.

(** Without the allow-infeasible mode the sweep holds a candidate exactly
    when some threshold's candidate fits the nominal budget. *)
Lemma sweep_loop_some_iff_within s l :
  ApproxLP.sw_aux_data (ApproxLP.sweep_loop g budget false s l empty_sweep) <> None <->
  exists i t, l !! i = Some t /\ (activation_ram (stats_at g s t) <= budget)%Z.
Proof.
  pose proof (sweep_loop_selects s l) as Hsel.
  unfold selects_last_cheapest in Hsel.
  destruct (ApproxLP.sw_aux_data _) as [b |] eqn:Hb.
  - destruct Hsel as (j & tj & Hj & _ & Hw & _).
    split; [| discriminate]. intros _. exists j, tj. split; assumption.
  - destruct Hsel as [_ Hnone]. split; [congruence |].
    intros (i & t & Hl & Hw). exfalso. exact (Hnone i t Hl Hw).
Qed.

(** *** Randomness *)

(** The thresholds are the clamped values of the normal draws, and drawing
    them advances the generator by those draws and nothing else. *)
Lemma draw_thresholds_normal n :
  forall rs,
    (ApproxLP.draw_thresholds n rs).1 =
      map (fun e => py_min 1 (py_max 0 e)) (normal_draws n rs) /\
    (ApproxLP.draw_thresholds n rs).2 = normal_state_after n rs.
Proof.
  induction n as [| n IH]; intros rs.
  - split; reflexivity.
  - cbn [ApproxLP.draw_thresholds normal_draws normal_state_after fst snd map].
    destruct (IH (np_random_normal (1 # 2) (1 # 2) rs).2) as [Hd Hs].
    rewrite Hd, Hs. split; reflexivity.
Qed.




End RoundingProperties.


(** ** The properties on concrete inputs *)

Section Concrete.
Import Fixture Notions.
#[local] Existing Instance toy.

(** C1, as the specification states it: in the allow-infeasible mode a
    result can be flagged feasible although its schedule needs more memory
    than the budget. *)
Lemma allow_infeasible_flags_over_budget_feasible :
  exists res a,
    sweep (chain 2) 1 [[1%Q; 1%Q]] [1 # 2] true = Returns res /\
    feasible res = true /\
    schedule_aux_data res = Some a /\
    ~ (activation_ram a <= 1)%Z.
Proof.
  eexists _, _. split; [vm_compute; reflexivity |].
  split; [reflexivity |]. split; [reflexivity |].
  vm_compute. intros Hle. apply Hle. reflexivity.
Qed.

(** The amended C1 on that input and on its companion without the mode. *)
Lemma feasible_flag_contract_witness :
  (exists res, sweep (chain 2) 2 [[1%Q; 1%Q]] [1 # 2] false = Returns res /\
     exists a, schedule_aux_data res = Some a /\ is_Some (schedule res) /\
               within 2 a) /\
  (forall res, sweep (chain 2) 1 [[1%Q; 1%Q]] [1 # 2] true = Returns res ->
     feasible res = true).
Proof.
  pose proof (feasible_flag_contract (C := toy) (chain 2) 2 (Some [[1%Q; 1%Q]]) true None None
                false None (1 # 100) None [1 # 2] FULL_SCHEDULE 1 1 true 0%Z)
    as (Hsweep & _).
  pose proof (feasible_flag_contract (C := toy) (chain 2) 1 (Some [[1%Q; 1%Q]]) true None None
                false None (1 # 100) None [1 # 2] FULL_SCHEDULE 1 1 true 0%Z)
    as (_ & _ & _ & _ & Hallow).
  split.
  - eexists. split; [vm_compute; reflexivity |].
    apply Hsweep; [vm_compute; reflexivity | reflexivity].
  - intros res Hres. apply (Hallow res Hres). split.
    + eexists _, _, _, _. vm_compute. reflexivity.
    + discriminate.
Defined.

(** C2 at a failing input.  The relaxation is solved with both cells at 1,
    so the one round stores both cells and needs memory 2 against a budget
    of 1: no round fits, no schedule is returned, and yet the result of the
    randomized rounding is flagged feasible. *)
Theorem randomized_feasible_without_schedule :
  exists res stats,
    (randomized (chain 2) 1 (Some [[1%Q; 1%Q]]) 1 0).1
      = Returns (ApproxLP.ResultAndRounds res stats) /\
    ApproxLP.stat_activation_ram stats = [2%Z] /\
    ApproxLP.stat_in_budget stats = [false] /\
    schedule res = None /\
    schedule_aux_data res = None /\
    feasible res = true.
Proof.
  eexists _, _. split; [vm_compute; reflexivity |].
  repeat split; reflexivity.
Qed.

(** On the same input the sweep, the sibling of the randomized rounding,
    reports the result as not feasible. *)
Lemma sweep_infeasible_without_schedule :
  exists res,
    sweep (chain 2) 1 [[1%Q; 1%Q]] [1 # 2] false = Returns res /\
    schedule res = None /\ feasible res = false.
Proof.
  eexists. split; [vm_compute; reflexivity |]. split; reflexivity.
Qed.

(** C4, as the specification states it: two thresholds giving the same
    schedule within the budget, and the sweep reports the later one. *)
Lemma sweep_tie_reports_later_threshold :
  exists res,
    sweep (chain 2) 1 [[1%Q]] [1 # 4; 1 # 2] false = Returns res /\
    stats_at (chain 2) [[1%Q]] (1 # 4) = stats_at (chain 2) [[1%Q]] (1 # 2) /\
    within 1 (stats_at (chain 2) [[1%Q]] (1 # 4)) /\
    approx_deterministic_round_threshold <$> ilp_aux_data res
      = Some (Some (1 # 2)) /\
    approx_deterministic_round_threshold <$> ilp_aux_data res
      <> Some (Some (1 # 4)).
Proof.
  eexists. split; [vm_compute; reflexivity |].
  split; [reflexivity |]. split; [vm_compute; discriminate |].
  split; [reflexivity |]. vm_compute. discriminate.
Qed.

(** The amended C4 on that input. *)
Lemma sweep_keeps_latest_of_equal_cost_witness :
  exists j tj,
    [1 # 4; 1 # 2] !! j = Some tj /\
    (forall i t, [1 # 4; 1 # 2] !! i = Some t ->
       within 1 (stats_at (chain 2) [[1%Q]] t) ->
       cpu (stats_at (chain 2) [[1%Q]] t) = cpu (stats_at (chain 2) [[1%Q]] tj) ->
       (i <= j)%nat).
Proof.
  edestruct (sweep_keeps_latest_of_equal_cost (C := toy) (chain 2) 1 (Some [[1%Q]]) true
               None None false None (1 # 100) None [1 # 4; 1 # 2] FULL_SCHEDULE
               [[1%Q]] [[1%Q]] [[1%Q]] [[1%Q]])
    as [(j & tj & Hj & _ & _ & _ & _ & Hall) _].
  - reflexivity.
  - vm_compute. reflexivity.
  - exists 0%nat, (1 # 4). split; [reflexivity |]. vm_compute. discriminate.
  - exists j, tj. split; [exact Hj |].
    intros i t Hl Hw Heq. destruct (Hall i t Hl Hw) as [_ Htie].
    destruct (Htie Heq) as [Hle _]. exact Hle.
Defined.

(** C5, as the specification states it: a solver error that is not a
    [ValueError] is not turned into an infeasible result. *)
Lemma solver_error_reaches_caller :
  outcome
    (lpsolver_run
       (ApproxLP.sweep_lpsolver (chain 2) (-10) (Some [[1%Q]]) true None None
          false None (1 # 100) None FULL_SCHEDULE))
    = Raised (OtherException "GurobiError" "negative budget") /\
  sweep (chain 2) (-10) [[1%Q]] [1 # 2] false
    = Raises (OtherException "GurobiError" "negative budget") /\
  (randomized (chain 2) (-10) (Some [[1%Q]]) 1 0).1
    = Raises (OtherException "GurobiError" "negative budget").
Proof. split; [| split]; vm_compute; reflexivity. Qed.

(** The amended C5 on an infeasible model. *)
Lemma solver_value_error_is_reported_witness :
  (exists res, (randomized (chain 2) 1 None 3 5).1
                 = Returns (ApproxLP.ResultAndRounds res (ApproxLP.mkStats [] [] [])) /\
               feasible res = false /\ schedule res = None) /\
  (randomized (chain 2) 1 None 3 5).2 = 5%Z.
Proof.
  pose proof (solver_value_error_is_reported (C := toy) (chain 2) 1 None true None None
                false None (1 # 100) None [1 # 2] FULL_SCHEDULE false 1 3 true 5%Z)
    as (_ & _ & Hrand & _).
  specialize (Hrand "Infeasible model" eq_refl). cbv zeta in Hrand.
  unfold randomized. rewrite Hrand. split.
  - eexists. split; [reflexivity |]. split; reflexivity.
  - reflexivity.
Defined.

(** C9 on a candidate that fits the budget and on one that does not: in
    the allow-infeasible mode the first is returned as the specification
    words it, the second is returned flagged feasible. *)
Lemma half_threshold_is_single_threshold_sweep_witness :
  half_threshold (chain 2) 2 [[1%Q; 1%Q]] true =
    single_half_threshold (chain 2) 2 (Some [[1%Q; 1%Q]]) true None None false
      None (1 # 100) None true /\
  half_threshold (chain 2) 1 [[1%Q; 1%Q]] true <>
    single_half_threshold (chain 2) 1 (Some [[1%Q; 1%Q]]) true None None false
      None (1 # 100) None true.
Proof.
  split.
  - destruct (half_threshold_is_single_threshold_sweep (C := toy) (chain 2) 2
                (Some [[1%Q; 1%Q]]) true None None false None (1 # 100) None 1 true)
      as (_ & _ & Hiff).
    apply Hiff. right. vm_compute. discriminate.
  - destruct (half_threshold_is_single_threshold_sweep (C := toy) (chain 2) 1
                (Some [[1%Q; 1%Q]]) true None None false None (1 # 100) None 1 true)
      as (_ & _ & Hiff).
    intros Heq. apply Hiff in Heq. destruct Heq as [Hallow | Hfits].
    + discriminate Hallow.
    + vm_compute in Hfits. apply Hfits. reflexivity.
Defined.

(** Without a new seeding a second call starts from the generator state the
    first one left, and can return another best candidate. *)
Lemma unseeded_second_call_differs :
  let first := randomized (chain 2) 2 (Some [[1 # 2]]) 1 2 in
  let second := randomized (chain 2) 2 (Some [[1 # 2]]) 1 first.2 in
  first.2 = 3%Z /\ first.1 <> second.1.
Proof. vm_compute. split; [reflexivity |]. intros Heq. discriminate Heq. Qed.


End Concrete.

(** * Further properties of the structural heuristics *)

Section ChenMore.
Import More.

Lemma mod_succ_step (k i : nat) :
  (0 < k)%nat ->
  (S i mod k = if decide (S (i mod k) = k) then 0 else S (i mod k))%nat.
Proof.
  intros Hk.
  pose proof (Nat.div_mod_eq i k) as Hi.
  pose proof (Nat.mod_upper_bound i k ltac:(lia)) as Hr.
  set (q := (i / k)%nat) in *. set (r := (i mod k)%nat) in *.
  clearbody q r.
  destruct (decide (S r = k)) as [Heq | Hne].
  - assert (Hs : S i = (k * (q + 1) + 0)%nat).
    { rewrite Nat.mul_add_distr_l. lia. }
    symmetry. exact (Nat.mod_unique (S i) k (q + 1) 0 Hk Hs).
  - assert (Hlt : (S r < k)%nat) by lia.
    assert (Hs : S i = (k * q + S r)%nat) by lia.
    symmetry. exact (Nat.mod_unique (S i) k q (S r) Hlt Hs).
Qed.

(** *** The greedy walk *)

Lemma greedy_loop_checkpoints g C B order :
  forall st st',
    Chen.greedy_loop g C B order st = Some st' ->
    forall w, w ∈ Chen.checkpoints st' ->
      w ∈ Chen.checkpoints st \/
      (w ∈ C /\ w ∈ order /\ is_Some (cost_ram g !! w)).
Proof.
  induction order as [| u order IH]; intros st st' Hloop w Hw.
  - injection Hloop as <-. left. exact Hw.
  - cbn [Chen.greedy_loop] in Hloop.
    destruct (Chen.greedy_step g C B st u) as [st1 |] eqn:Hstep; [| discriminate].
    destruct (IH st1 st' Hloop w Hw) as [Hin | (HC & Ho & Hc)].
    + unfold Chen.greedy_step in Hstep.
      destruct (cost_ram g !! u) as [c |] eqn:Hcost; [| discriminate].
      destruct (bool_decide (u ∈ C) && (B <? Chen.temp st + c)%Z) eqn:Hcond;
        injection Hstep as <-; cbn in Hin.
      * apply elem_of_union in Hin as [Hin | Hin]; [left; exact Hin |].
        apply elem_of_singleton in Hin as ->. right.
        apply andb_true_iff in Hcond as [HC _]. apply bool_decide_eq_true in HC.
        split; [exact HC |]. split; [apply elem_of_cons; left; reflexivity |].
        rewrite Hcost. eexists. reflexivity.
      * left. exact Hin.
    + right. split; [exact HC |]. split; [| exact Hc].
      apply elem_of_cons. right. exact Ho.
Qed.

(** X1.  Every checkpoint the greedy walk selects is an eligible vertex of
    the forward topological order that has a memory cost. *)
Theorem greedy_checkpoints_eligible g segment_mem_B use_actuation_points cps w :
  Chen.greedy_checkpoints g segment_mem_B use_actuation_points = Some cps ->
  w ∈ cps ->
  w ∈ Chen.eligible g use_actuation_points /\
  w ∈ topological_order_fwd g /\
  is_Some (cost_ram g !! w).
Proof.
  unfold Chen.greedy_checkpoints. intros Hcps Hw.
  destruct (Chen.greedy_loop _ _ _ _ _) as [st' |] eqn:Hloop; [| discriminate].
  injection Hcps as <-.
  destruct (greedy_loop_checkpoints _ _ _ _ _ _ Hloop w Hw) as [Hin | Hok].
  - cbn in Hin. apply not_elem_of_empty in Hin. contradiction.
  - exact Hok.
Qed.

Lemma greedy_loop_key_error g C B order :
  forall st,
    Chen.greedy_loop g C B order st = None <->
    exists w, w ∈ order /\ cost_ram g !! w = None.
Proof.
  induction order as [| u order IH]; intros st.
  - cbn. split; [discriminate |]. intros (w & Hw & _). inversion Hw.
  - cbn [Chen.greedy_loop]. unfold Chen.greedy_step at 1.
    destruct (cost_ram g !! u) as [c |] eqn:Hcost.
    + destruct (bool_decide (u ∈ C) && (B <? Chen.temp st + c)%Z);
        rewrite IH; split.
      * intros (w & Hw & Hn). exists w. split; [| exact Hn].
        apply elem_of_cons. right. exact Hw.
      * intros (w & Hw & Hn). exists w. split; [| exact Hn].
        apply elem_of_cons in Hw as [-> | Hw]; [congruence | exact Hw].
      * intros (w & Hw & Hn). exists w. split; [| exact Hn].
        apply elem_of_cons. right. exact Hw.
      * intros (w & Hw & Hn). exists w. split; [| exact Hn].
        apply elem_of_cons in Hw as [-> | Hw]; [congruence | exact Hw].
    + split; [| reflexivity]. intros _. exists u.
      split; [apply elem_of_cons; left; reflexivity | exact Hcost].
Qed.

(** X2.  [solve_chen_greedy] fails with a [KeyError] exactly when some
    vertex of the forward topological order has no entry in [cost_ram],
    eligible or not; otherwise it returns a result flagged feasible that
    carries a schedule, the segment threshold as its budget and the tag of
    the variant. *)
Theorem greedy_key_error `{Collaborators} g segment_mem_B use_actuation_points
    elapsed :
  (Chen.solve_chen_greedy g segment_mem_B use_actuation_points elapsed = None <->
   exists w, w ∈ topological_order_fwd g /\ cost_ram g !! w = None) /\
  (forall res,
     Chen.solve_chen_greedy g segment_mem_B use_actuation_points elapsed = Some res ->
     feasible res = true /\ is_Some (schedule res) /\
     is_Some (schedule_aux_data res) /\
     solver_budget res = segment_mem_B /\
     solve_strategy res =
       (if use_actuation_points then CHEN_GREEDY else CHEN_GREEDY_NOAP)).
Proof.
  unfold Chen.solve_chen_greedy, Chen.greedy_checkpoints. split.
  - rewrite <- (greedy_loop_key_error g
                  (Chen.eligible g use_actuation_points) segment_mem_B
                  (topological_order_fwd g) (Chen.mkGreedy 0 0 ∅)).
    destruct (Chen.greedy_loop _ _ _ _ _) as [st |]; cbn.
    + destruct (schedule_from_rs _ _ _). split; discriminate.
    + split; reflexivity.
  - intros res. destruct (Chen.greedy_loop _ _ _ _ _) as [st |]; cbn;
      [| discriminate].
    destruct (schedule_from_rs _ _ _) as [sched aux]. intros [= <-]. cbn.
    repeat split; eexists; reflexivity.
Qed.

Lemma order_cost_cons g u l c :
  cost_ram g !! u = Some c ->
  order_cost g (u :: l) = (c + order_cost g l)%Z.
Proof. intros Hc. unfold order_cost. cbn [foldr]. rewrite Hc. reflexivity. Qed.

Lemma order_cost_nonneg g l : costs_nonneg g l -> (0 <= order_cost g l)%Z.
Proof.
  induction 1 as [| u l (c & Hc & Hpos) _ IH].
  - cbn. lia.
  - rewrite (order_cost_cons g u l c Hc). lia.
Qed.

Lemma greedy_loop_below_threshold g C B order :
  costs_nonneg g order ->
  forall st,
    (Chen.temp st + order_cost g order <= B)%Z ->
    exists st',
      Chen.greedy_loop g C B order st = Some st' /\
      Chen.checkpoints st' = Chen.checkpoints st.
Proof.
  induction 1 as [| u l (c & Hc & Hpos) Hl IH]; intros st Hsum.
  - eexists. split; reflexivity.
  - cbn [Chen.greedy_loop]. unfold Chen.greedy_step. rewrite Hc.
    rewrite (order_cost_cons g u l c Hc) in Hsum.
    pose proof (order_cost_nonneg g l Hl) as Hrest.
    assert (Hno : (B <? Chen.temp st + c)%Z = false) by (apply Z.ltb_ge; lia).
    rewrite Hno, andb_false_r.
    destruct (IH (Chen.mkGreedy (Chen.temp st + c) (Chen.x st) (Chen.checkpoints st)))
      as (st' & Hloop & Hcps).
    + cbn. lia.
    + exists st'. split; [exact Hloop | exact Hcps].
Qed.

(** X3.  When no cost is negative and the vertices of the forward order
    cost at most [segment_mem_B] together, the greedy walk selects no
    checkpoint at all. *)
Theorem greedy_no_checkpoint_below_threshold g segment_mem_B use_actuation_points :
  costs_nonneg g (topological_order_fwd g) ->
  (order_cost g (topological_order_fwd g) <= segment_mem_B)%Z ->
  Chen.greedy_checkpoints g segment_mem_B use_actuation_points = Some ∅.
Proof.
  intros Hpos Hsum. unfold Chen.greedy_checkpoints.
  destruct (greedy_loop_below_threshold g
              (Chen.eligible g use_actuation_points) segment_mem_B
              (topological_order_fwd g) Hpos (Chen.mkGreedy 0 0 ∅))
    as (st' & Hloop & Hcps).
  - cbn. lia.
  - rewrite Hloop. cbn. rewrite Hcps. reflexivity.
Qed.

Lemma greedy_no_checkpoint_below_threshold_witness :
  Chen.greedy_checkpoints (Fixture.chain 10) 10 false = Some ∅.
Proof.
  apply greedy_no_checkpoint_below_threshold.
  - unfold costs_nonneg. cbn [Fixture.chain topological_order_fwd].
    repeat (apply Forall_cons; split; [exists 1%Z; split; [reflexivity | lia] |]).
    apply Forall_nil. exact I.
  - vm_compute. intros Hgt. discriminate Hgt.
Defined.

Lemma greedy_loop_unit_costs g C (B : Z) len :
  (0 <= B)%Z ->
  forall a st,
    (forall w, (a <= w < a + len)%nat -> cost_ram g !! w = Some 1%Z /\ w ∈ C) ->
    Chen.temp st = Z.of_nat (a mod (Z.to_nat B + 1)) ->
    exists st',
      Chen.greedy_loop g C B (seq a len) st = Some st' /\
      forall w, w ∈ Chen.checkpoints st' <->
        w ∈ Chen.checkpoints st \/
        ((a <= w < a + len)%nat /\ ((w + 1) mod (Z.to_nat B + 1) = 0)%nat).
Proof.
  intros HB. set (p := (Z.to_nat B + 1)%nat).
  assert (Hp : (0 < p)%nat) by (unfold p; lia).
  assert (HpB : Z.of_nat p = (B + 1)%Z) by (unfold p; lia).
  induction len as [| len IH]; intros a st Hunit Htemp.
  - exists st. split; [reflexivity |]. intros w. split; [auto |].
    intros [Hin | [Hr _]]; [exact Hin | lia].
  - cbn [seq Chen.greedy_loop]. unfold Chen.greedy_step.
    destruct (Hunit a ltac:(lia)) as [Hcost HC]. rewrite Hcost.
    rewrite (bool_decide_eq_true_2 _ HC). cbn [andb].
    pose proof (Nat.mod_upper_bound a p ltac:(lia)) as Hr.
    pose proof (mod_succ_step p a Hp) as Hsucc.
    replace (a + 1)%nat with (S a) in * by lia.
    destruct (decide (S (a mod p) = p)) as [Heq | Hne].
    + assert (Hlt : (B <? Chen.temp st + 1)%Z = true).
      { apply Z.ltb_lt. rewrite Htemp. lia. }
      rewrite Hlt.
      destruct (IH (S a) (Chen.mkGreedy 0 (Chen.x st + 1)
                        (Chen.checkpoints st ∪ {[a]})))
        as (st' & Hloop & Hcps).
      * intros w Hw. apply Hunit. lia.
      * cbn. rewrite Hsucc. reflexivity.
      * exists st'. split; [exact Hloop |]. intros w. rewrite Hcps. cbn.
        rewrite elem_of_union, elem_of_singleton. split.
        -- intros [[Hin | ->] | [Hr' Hm]].
           ++ left. exact Hin.
           ++ right. split; [lia |].
              replace (a + 1)%nat with (S a) by lia. exact Hsucc.
           ++ right. split; [lia | exact Hm].
        -- intros [Hin | [Hr' Hm]]; [left; left; exact Hin |].
           destruct (decide (w = a)) as [-> | Hwa]; [left; right; reflexivity |].
           right. split; [lia | exact Hm].
    + assert (Hlt : (B <? Chen.temp st + 1)%Z = false).
      { apply Z.ltb_ge. rewrite Htemp. lia. }
      rewrite Hlt.
      destruct (IH (S a) (Chen.mkGreedy (Chen.temp st + 1) (Chen.x st)
                        (Chen.checkpoints st)))
        as (st' & Hloop & Hcps).
      * intros w Hw. apply Hunit. lia.
      * cbn. rewrite Hsucc, Htemp. lia.
      * exists st'. split; [exact Hloop |]. intros w. rewrite Hcps. cbn. split.
        -- intros [Hin | [Hr' Hm]]; [left; exact Hin |].
           right. split; [lia | exact Hm].
        -- intros [Hin | [Hr' Hm]]; [left; exact Hin |].
           destruct (decide (w = a)) as [-> | Hwa].
           ++ exfalso. replace (a + 1)%nat with (S a) in Hm by lia.
              rewrite Hsucc in Hm. discriminate Hm.
           ++ right. split; [lia | exact Hm].
Qed.

(** X4.  On a graph whose forward order is 0, ..., n-1 with every vertex
    eligible and of memory cost 1, and a threshold [segment_mem_B >= 0], the
    greedy walk checkpoints exactly every [(segment_mem_B + 1)]-th vertex:
    vertex [w] is a checkpoint iff [w + 1] is a multiple of
    [segment_mem_B + 1]. *)
Theorem greedy_unit_cost_chain g segment_mem_B use_actuation_points n :
  (0 <= segment_mem_B)%Z ->
  topological_order_fwd g = seq 0 n ->
  (forall w, (w < n)%nat ->
     cost_ram g !! w = Some 1%Z /\ w ∈ Chen.eligible g use_actuation_points) ->
  exists cps,
    Chen.greedy_checkpoints g segment_mem_B use_actuation_points = Some cps /\
    forall w, w ∈ cps <->
      (w < n)%nat /\ ((w + 1) mod (Z.to_nat segment_mem_B + 1) = 0)%nat.
Proof.
  intros HB Horder Hunit. unfold Chen.greedy_checkpoints. rewrite Horder.
  destruct (greedy_loop_unit_costs g (Chen.eligible g use_actuation_points)
              segment_mem_B n HB 0%nat (Chen.mkGreedy 0 0 ∅))
    as (st' & Hloop & Hcps).
  - intros w Hw. apply Hunit. lia.
  - cbn. rewrite Nat.Div0.mod_0_l. reflexivity.
  - rewrite Hloop. exists (Chen.checkpoints st'). split; [reflexivity |].
    intros w. rewrite Hcps. cbn. split.
    + intros [Hin | [Hr Hm]]; [apply not_elem_of_empty in Hin; contradiction |].
      split; [lia | exact Hm].
    + intros [Hr Hm]. right. split; [lia | exact Hm].
Qed.

Lemma greedy_unit_cost_chain_witness :
  exists cps,
    Chen.greedy_checkpoints (Fixture.chain 12) 2 false = Some cps /\
    forall w, w ∈ cps <-> (w < 12)%nat /\ ((w + 1) mod 3 = 0)%nat.
Proof.
  apply (greedy_unit_cost_chain (Fixture.chain 12) 2 false 12).
  - lia.
  - reflexivity.
  - intros w Hw. split.
    + do 12 (destruct w as [| w]; [vm_compute; reflexivity |]). lia.
    + cbn [Chen.eligible Fixture.chain v]. apply elem_of_seq. lia.
Defined.

(** *** The square-root spacing *)

Lemma every_kth_one C : forall i, Chen.every_kth 1 i C = C.
Proof.
  induction C as [| w C IH]; intros i; cbn [Chen.every_kth].
  - reflexivity.
  - rewrite Nat.mod_1_r. cbn. rewrite IH. reflexivity.
Qed.

(** X5.  With at most three eligible vertices the spacing is 1 (or there
    is nothing to select): [solve_chen_sqrtn] checkpoints every eligible
    vertex. *)
Theorem sqrtn_small_selects_all g use_actuation_points :
  (length (Chen.eligible g use_actuation_points) <= 3)%nat ->
  Chen.sqrtn_checkpoints g use_actuation_points =
  Chen.eligible g use_actuation_points.
Proof.
  unfold Chen.sqrtn_checkpoints, Chen.sqrtn_k.
  destruct (Chen.eligible g use_actuation_points) as [| a [| b [| c [| d l]]]];
    cbn [length]; intros Hlen;
    [reflexivity | exact (every_kth_one _ 0) .. | exfalso; lia].
Qed.

Lemma sqrtn_small_selects_all_witness :
  Chen.sqrtn_checkpoints (Fixture.chain 3) false = [0; 1; 2]%nat.
Proof.
  apply (sqrtn_small_selects_all (Fixture.chain 3) false). cbn. lia.
Defined.

Lemma sqrtn_length g use_actuation_points :
  let m := length (Chen.eligible g use_actuation_points) in
  (1 <= m)%nat ->
  (0 < Nat.sqrt m)%nat /\
  length (Chen.sqrtn_checkpoints g use_actuation_points) = (m / Nat.sqrt m)%nat.
Proof.
  intros m Hm.
  assert (Hk : (0 < Nat.sqrt m)%nat).
  { pose proof (Nat.sqrt_le_mono 1 m Hm) as Hs.
    change (Nat.sqrt 1) with 1%nat in Hs. lia. }
  split; [exact Hk |].
  unfold Chen.sqrtn_checkpoints, Chen.sqrtn_k. fold m.
  rewrite every_kth_length by exact Hk. fold m.
  rewrite (Nat.div_small 0 _ Hk), Nat.sub_0_r, Nat.add_0_l. reflexivity.
Qed.

(** X6.  With [m >= 1] eligible vertices and [k = floor(sqrt(m))],
    [solve_chen_sqrtn] selects at least [k] and at most [k + 2]
    checkpoints. *)
Theorem sqrtn_count_bounds g use_actuation_points :
  let m := length (Chen.eligible g use_actuation_points) in
  let k := Nat.sqrt m in
  (1 <= m)%nat ->
  (k <= length (Chen.sqrtn_checkpoints g use_actuation_points) <= k + 2)%nat.
Proof.
  intros m k Hm.
  destruct (sqrtn_length g use_actuation_points Hm) as [Hk Hlen].
  fold m in Hk, Hlen. fold k in Hk, Hlen. rewrite Hlen.
  pose proof (Nat.sqrt_specif m) as [Hlo Hhi]. fold k in Hlo, Hhi.
  split.
  - apply Nat.div_le_lower_bound; lia.
  - assert (Hlt : (m / k < k + 3)%nat); [| lia].
    apply Nat.Div0.div_lt_upper_bound. nia.
Qed.

Lemma sqrtn_count_bounds_witness :
  (3 <= length (Chen.sqrtn_checkpoints (Fixture.chain 15) false) <= 3 + 2)%nat.
Proof.
  apply (sqrtn_count_bounds (Fixture.chain 15) false). cbn. lia.
Defined.

Lemma every_kth_lookup (k : nat) (C : list nat) :
  (0 < k)%nat ->
  forall i j,
    Chen.every_kth k i C !! j = C !! (k - 1 - i mod k + j * k)%nat.
Proof.
  intros Hk. induction C as [| w C IH]; intros i j.
  - cbn. rewrite !lookup_nil. reflexivity.
  - cbn [Chen.every_kth]. replace (i + 1)%nat with (S i) by lia.
    pose proof (Nat.mod_upper_bound i k ltac:(lia)) as Hr.
    pose proof (mod_succ_step k i Hk) as Hsucc.
    destruct (decide (S (i mod k) = k)) as [Heq | Hne].
    + rewrite Hsucc. cbn [Nat.eqb].
      destruct j as [| j].
      * replace (k - 1 - i mod k + 0 * k)%nat with 0%nat by lia. reflexivity.
      * cbn [lookup list_lookup]. rewrite IH, Hsucc.
        replace (k - 1 - i mod k + S j * k)%nat with (S (k - 1 - 0 + j * k)) by nia.
        reflexivity.
    + rewrite Hsucc. cbn [Nat.eqb]. rewrite IH, Hsucc.
      replace (k - 1 - i mod k + j * k)%nat
        with (S (k - 1 - S (i mod k) + j * k)) by lia.
      reflexivity.
Qed.

(** X7.  With [m >= 1] eligible vertices and [k = floor(sqrt(m))], the
    [j]-th checkpoint of [solve_chen_sqrtn] (counting from 0) is the
    eligible vertex at position [(j + 1) * k - 1]: the checkpoints keep the
    order of the eligible vertices and are [k] positions apart. *)
Theorem sqrtn_checkpoint_positions g use_actuation_points j :
  let C := Chen.eligible g use_actuation_points in
  let k := Nat.sqrt (length C) in
  (1 <= length C)%nat ->
  Chen.sqrtn_checkpoints g use_actuation_points !! j = C !! ((j + 1) * k - 1)%nat.
Proof.
  intros C k Hm.
  destruct (sqrtn_length g use_actuation_points Hm) as [Hk _].
  fold C in Hk. fold k in Hk.
  unfold Chen.sqrtn_checkpoints, Chen.sqrtn_k. fold C. fold k.
  rewrite (every_kth_lookup k C Hk 0 j). rewrite Nat.Div0.mod_0_l.
  f_equal. nia.
Qed.

Lemma sqrtn_checkpoint_positions_witness :
  Chen.sqrtn_checkpoints (Fixture.chain 10) false !! 1%nat = Some 5%nat.
Proof.
  rewrite (sqrtn_checkpoint_positions (Fixture.chain 10) false 1).
  - reflexivity.
  - cbn. lia.
Defined.

End ChenMore.

(** * Further properties of the rounding strategies *)

Section RoundingMore.
Context {C : Collaborators}.
Import Notions MoreRounding.

Variables (g : DFGraph) (budget : Z) (seed_s : option FMatrix) (approx : bool)
  (time_limit : option Z) (write_log_file : option string)
  (print_to_console : bool) (write_model_file : option string)
  (eps_noise : Q) (solver_cores : option Z).

Local Abbreviation sweep :=
  (ApproxLP.solve_approx_lp_deterministic_sweep g budget seed_s approx time_limit
     write_log_file print_to_console write_model_file eps_noise solver_cores).
Local Abbreviation rand_threshold :=
  (ApproxLP.solve_approx_lp_deterministic_rand_threshold g budget seed_s approx
     time_limit write_log_file print_to_console write_model_file eps_noise
     solver_cores).
Local Abbreviation half_threshold :=
  (ApproxLP.solve_approx_lp_deterministic_05_threshold g budget seed_s approx
     time_limit write_log_file print_to_console write_model_file eps_noise
     solver_cores).
Local Abbreviation randomized :=
  (ApproxLP.solve_approx_lp_randomized g budget seed_s approx time_limit
     write_log_file print_to_console write_model_file eps_noise solver_cores).
Local Abbreviation sweep_solver imposed :=
  (lpsolver_run
     (ApproxLP.sweep_lpsolver g budget seed_s approx time_limit write_log_file
        print_to_console write_model_file eps_noise solver_cores imposed)).
Local Abbreviation randomized_solver :=
  (lpsolver_run
     (ApproxLP.randomized_lpsolver g budget seed_s approx time_limit
        write_log_file print_to_console write_model_file eps_noise solver_cores)).
Local Abbreviation empty_sweep := (ApproxLP.mkSweep None None None).
Local Abbreviation empty_round := (ApproxLP.mkRound ApproxLP.CostInf None None [] [] []).

(** *** What a result of the sweep carries *)

Lemma sweep_loop_holds_candidate allow s l :
  forall st0 l0,
    holds_candidate_of g s l0 st0 ->
    holds_candidate_of g s (l0 ++ l)
      (ApproxLP.sweep_loop g budget allow s l st0).
Proof.
  induction l as [| t l IH]; intros st0 l0 Hst0.
  - rewrite app_nil_r. exact Hst0.
  - rewrite (sweep_loop_cons g budget allow s l t st0).
    replace (l0 ++ t :: l) with ((l0 ++ [t]) ++ l) by (rewrite <- app_assoc; reflexivity).
    apply IH. unfold ApproxLP.sweep_step.
    destruct (ApproxLP.sweep_accepts _ _ _ _).
    + right. exists t. split; [| reflexivity].
      apply elem_of_app. right. apply list_elem_of_singleton. reflexivity.
    + destruct Hst0 as [-> | (t' & Ht' & ->)].
      * left. reflexivity.
      * right. exists t'. split; [| reflexivity].
        apply elem_of_app. left. exact Ht'.
Qed.

Lemma sweep_result_shape thresholds imposed allow res :
  sweep thresholds imposed allow = Returns res ->
  solve_strategy res = APPROX_DET_ROUND_LP_SWEEP /\
  solver_budget res = budget /\
  (feasible res = true ->
   exists r s u free_e t,
     outcome (sweep_solver imposed) = Solved r s u free_e /\
     t ∈ thresholds /\
     schedule res = Some (ApproxLP.candidate g (binarize s t)).1 /\
     schedule_aux_data res = Some (stats_at g s t) /\
     approx_deterministic_round_threshold <$> ilp_aux_data res = Some (Some t)) /\
  (feasible res = false ->
   schedule res = None /\ schedule_aux_data res = None /\
   approx_deterministic_round_threshold <$> ilp_aux_data res = Some None).
Proof.
  intros Hres.
  destruct (outcome (sweep_solver imposed)) as [r s u fe | [msg | cls msg]] eqn:Hout.
  - rewrite (sweep_solved _ _ _ _ _ _ _ _ _ _ _ _ _ _ _ _ _ Hout) in Hres.
    cbv zeta in Hres. injection Hres as <-. cbn.
    pose proof (sweep_loop_holds_candidate allow s thresholds empty_sweep []
                  (or_introl eq_refl)) as Hinv.
    cbn [app] in Hinv. destruct Hinv as [Hst | (t & Ht & Hst)]; rewrite Hst; cbn.
    + repeat split; try reflexivity. intros Hf. discriminate Hf.
    + split; [reflexivity |]. split; [reflexivity |]. split.
      * intros _. exists r, s, u, fe, t. repeat split; [exact Ht].
      * intros Hf. discriminate Hf.
  - rewrite (sweep_value_error _ _ _ _ _ _ _ _ _ _ _ _ _ _ Hout) in Hres.
    injection Hres as <-. cbn. repeat split; try reflexivity.
    intros Hf. discriminate Hf.
  - rewrite (sweep_other_exception _ _ _ _ _ _ _ _ _ _ _ _ _ _ _ Hout) in Hres.
    discriminate Hres.
Qed.


(** X8.  Whatever the mode, a result of the sweep is flagged feasible
    exactly when it carries a schedule; the schedule, the statistics and the
    reported threshold then belong together: they are the candidate of one
    of the thresholds given.  A result that is not flagged feasible carries
    no schedule, no statistics and no threshold.  The result always bears
    the tag of the sweep and the nominal budget. *)
Theorem sweep_result_consistent thresholds imposed allow res :
  sweep thresholds imposed allow = Returns res ->
  solve_strategy res = APPROX_DET_ROUND_LP_SWEEP /\
  solver_budget res = budget /\
  (feasible res = true ->
   exists r s u free_e t,
     outcome (sweep_solver imposed) = Solved r s u free_e /\
     t ∈ thresholds /\
     schedule res = Some (ApproxLP.candidate g (binarize s t)).1 /\
     schedule_aux_data res = Some (stats_at g s t) /\
     approx_deterministic_round_threshold <$> ilp_aux_data res = Some (Some t)) /\
  (feasible res = false ->
   schedule res = None /\ schedule_aux_data res = None /\
   approx_deterministic_round_threshold <$> ilp_aux_data res = Some None).
Proof. apply sweep_result_shape. Qed.
(** *** The random thresholds *)

Lemma clamp_unit_interval (e : Q) :
  Qle 0 (py_min 1 (py_max 0 e)) /\ Qle (py_min 1 (py_max 0 e)) 1.
Proof.
  unfold py_min, py_max.
  destruct (Qle_bool e 0) eqn:He.
  - change (Qle_bool 1 0) with false. cbn. split; discriminate.
  - assert (Hpos : Qle 0 e).
    { apply Qlt_le_weak, Qnot_le_lt. intros Hle.
      apply Qle_bool_iff in Hle. congruence. }
    destruct (Qle_bool 1 e) eqn:H1.
    + split; [discriminate | apply Qle_refl].
    + split; [exact Hpos |].
      apply Qlt_le_weak, Qnot_le_lt. intros Hle.
      apply Qle_bool_iff in Hle. congruence.
Qed.

Lemma draw_thresholds_clamped n :
  forall rs,
    length (ApproxLP.draw_thresholds n rs).1 = n /\
    Forall (fun t => Qle 0 t /\ Qle t 1) (ApproxLP.draw_thresholds n rs).1.
Proof.
  induction n as [| n IH]; intros rs; cbn [ApproxLP.draw_thresholds fst].
  - split; [reflexivity | constructor].
  - destruct (IH (np_random_normal (1 # 2) (1 # 2) rs).2) as [Hlen Hall].
    split; [cbn; rewrite Hlen; reflexivity |].
    constructor; [apply clamp_unit_interval | exact Hall].
Qed.

(** A value inside the unit interval is left as it is by the clamp. *)
Lemma clamp_inside (e : Q) :
  Qle 0 e -> Qle e 1 -> Qeq (py_min 1 (py_max 0 e)) e.
Proof.
  intros H0 H1. unfold py_min, py_max.
  destruct (Qle_bool e 0) eqn:He.
  - change (Qle_bool 1 0) with false. cbn.
    apply Qle_bool_iff in He. apply Qle_antisym; assumption.
  - destruct (Qle_bool 1 e) eqn:H1e.
    + apply Qle_bool_iff in H1e. apply Qle_antisym; assumption.
    + reflexivity.
Qed.

(** X9.  Whatever numpy's normal generator hands out, the random-threshold
    entry point is the sweep, in its default mode, over exactly [n_samples]
    thresholds; each of them is a draw of [np.random.normal(0.5, 0.5)]
    clamped to the interval from 0 to 1 (a draw inside the interval is kept
    as it is), so every threshold lies in that interval, and so does the
    threshold a feasible result reports, which is one of those drawn. *)
Theorem rand_threshold_in_unit_interval n_samples rs :
  let clamp := fun e => py_min 1 (py_max 0 e) in
  let thresholds := (ApproxLP.draw_thresholds (Z.to_nat n_samples) rs).1 in
  length thresholds = Z.to_nat n_samples /\
  thresholds = map clamp (normal_draws (Z.to_nat n_samples) rs) /\
  (forall e, Qle 0 (clamp e) /\ Qle (clamp e) 1 /\
             (Qle 0 e -> Qle e 1 -> Qeq (clamp e) e)) /\
  Forall (fun t => Qle 0 t /\ Qle t 1) thresholds /\
  (rand_threshold n_samples rs).1 = sweep thresholds FULL_SCHEDULE false /\
  (forall res,
     (rand_threshold n_samples rs).1 = Returns res ->
     feasible res = true ->
     exists t,
       t ∈ thresholds /\
       approx_deterministic_round_threshold <$> ilp_aux_data res = Some (Some t) /\
       Qle 0 t /\ Qle t 1).
Proof.
  intros clamp thresholds.
  destruct (draw_thresholds_clamped (Z.to_nat n_samples) rs) as [Hlen Hall].
  split; [exact Hlen |]. split.
  { apply (draw_thresholds_normal (Z.to_nat n_samples) rs). }
  split.
  { intros e. destruct (clamp_unit_interval e) as [Hlo Hhi].
    split; [exact Hlo |]. split; [exact Hhi |]. apply clamp_inside. }
  split; [exact Hall |]. split; [reflexivity |].
  intros res Hres Hf.
  destruct (sweep_result_shape _ _ _ _ Hres) as (_ & _ & Hfeas & _).
  destruct (Hfeas Hf) as (r & s & u & fe & t & _ & Ht & _ & _ & Hthr).
  exists t. split; [exact Ht |]. split; [exact Hthr |].
  rewrite Forall_forall in Hall. exact (Hall t Ht).
Qed.

Lemma sweep_no_thresholds imposed allow res :
  sweep [] imposed allow = Returns res ->
  feasible res = false /\ schedule res = None /\ schedule_aux_data res = None.
Proof.
  intros Hres.
  destruct (sweep_result_shape _ _ _ _ Hres) as (_ & _ & Hfeas & Hinf).
  destruct (feasible res) eqn:Hf.
  - destruct (Hfeas eq_refl) as (r & s & u & fe & t & _ & Ht & _).
    inversion Ht.
  - destruct (Hinf eq_refl) as (Hs & Ha & _). repeat split; assumption.
Qed.

(** X10.  With [n_samples <= 0] the random-threshold entry point draws
    nothing, leaves the generator as it found it, and can only return a
    result that is not feasible and has no schedule. *)
Theorem rand_threshold_without_samples n_samples rs :
  (n_samples <= 0)%Z ->
  (rand_threshold n_samples rs).2 = rs /\
  forall res,
    (rand_threshold n_samples rs).1 = Returns res ->
    feasible res = false /\ schedule res = None /\ schedule_aux_data res = None.
Proof.
  intros Hn. unfold ApproxLP.solve_approx_lp_deterministic_rand_threshold.
  replace (Z.to_nat n_samples) with 0%nat by lia. cbn [ApproxLP.draw_thresholds fst snd].
  split; [reflexivity |]. intros res. apply sweep_no_thresholds.
Qed.

(** *** Binarizing a fractional matrix *)

Lemma lookup_map {A B : Type} (f : A -> B) (l : list A) :
  forall i, map f l !! i = f <$> l !! i.
Proof.
  induction l as [| a l IH]; intros [| i]; cbn; try reflexivity. apply IH.
Qed.

Lemma cell_map {A B : Type} (f : A -> B) (m : list (list A)) i j :
  cell (map (map f) m) i j = f <$> cell m i j.
Proof.
  unfold cell. rewrite lookup_map.
  destruct (m !! i) as [row |]; cbn; [| reflexivity].
  apply lookup_map.
Qed.

Lemma binarize_cell s t i j :
  cell (binarize s t) i j =
  (fun e => Z.b2z (Qle_bool t e)) <$> cell s i j.
Proof. apply cell_map. Qed.

(** X11.  Binarizing keeps the shape of the fractional matrix, every
    entry becomes 0 or 1, and raising the threshold never stores a cell that
    the lower threshold drops. *)
Theorem binarize_antitone s t1 t2 i j :
  Qle t1 t2 ->
  (is_Some (cell (binarize s t1) i j) <-> is_Some (cell s i j)) /\
  forall b1 b2,
    cell (binarize s t1) i j = Some b1 ->
    cell (binarize s t2) i j = Some b2 ->
    (0 <= b2 <= b1)%Z /\ (b1 <= 1)%Z.
Proof.
  intros Hle. rewrite !binarize_cell. split.
  - rewrite fmap_is_Some. reflexivity.
  - intros b1 b2. destruct (cell s i j) as [e |]; cbn; [| discriminate].
    intros [= <-] [= <-].
    destruct (Qle_bool t2 e) eqn:H2.
    + assert (H1 : Qle_bool t1 e = true).
      { apply Qle_bool_iff. apply Qle_bool_iff in H2.
        exact (Qle_trans _ _ _ Hle H2). }
      rewrite H1. cbn. lia.
    + destruct (Qle_bool t1 e); cbn; lia.
Qed.

Lemma zip_with_replicate_row (f : Q -> Q -> Z) (a : Q) (row : list Q) :
  zip_with f (replicate (length row) a) row = map (f a) row.
Proof.
  induction row as [| e row IH]; cbn; [reflexivity |]. rewrite IH. reflexivity.
Qed.

(** X12.  A round of the randomized rounding whose draws all equal one
    value [a] stores exactly the cells the sweep stores at the threshold
    [a]: on a rectangular matrix the rounded matrix is the binarized one. *)
Theorem bernoulli_constant_draw_is_threshold cols (s : FMatrix) (a : Q) :
  rectangular cols s ->
  bernoulli (replicate (length s) (replicate cols a)) s = binarize s a.
Proof.
  unfold rectangular, bernoulli, binarize.
  induction 1 as [| row s Hrow _ IH]; cbn; [reflexivity |].
  rewrite IH. f_equal. rewrite <- Hrow. apply zip_with_replicate_row.
Qed.

(** *** The reduced budget *)

(** X13.  The budget handed to the relaxation solver never exceeds a
    non-negative nominal budget and is strictly below a positive one, by at
    least a tenth (rounded in favour of the solver by less than one unit);
    a negative nominal budget is raised towards zero; the reduced budget
    grows with the nominal one. *)
Theorem int_09_bounds (b : Z) :
  ((0 <= b)%Z ->
   (0 <= int_09 b <= b)%Z /\ (10 * int_09 b <= 9 * b < 10 * int_09 b + 10)%Z) /\
  ((0 < b)%Z -> (int_09 b < b)%Z) /\
  ((b < 0)%Z -> (b < int_09 b <= 0)%Z) /\
  (forall b', (b <= b')%Z -> (int_09 b <= int_09 b')%Z).
Proof.
  unfold int_09. repeat split; intros;
    Z.to_euclidean_division_equations; lia.
Qed.

(** *** The rounds of the randomized rounding *)

Lemma round_step_summary s st rs :
  round_summary budget st ->
  round_summary budget (ApproxLP.round_step g budget s (st, rs)).1.
Proof.
  intros (Hlc & Hli & Hbest). unfold ApproxLP.round_step. cbn [fst snd].
  set (c := ApproxLP.candidate g _).
  destruct (activation_ram c.2 <=? budget)%Z eqn:Hram; cbn [andb].
  - destruct (ApproxLP.round_improves c.2 st) eqn:Himp; cbn [fst].
    + split; [| split]; cbn.
      * rewrite !length_app, Hlc. reflexivity.
      * rewrite !length_app, Hli. reflexivity.
      * split; [eexists; reflexivity |]. split; [reflexivity |].
        split; [apply Z.leb_le, Hram |].
        exists (length (ApproxLP.rounding_cpus st)).
        split; [apply list_lookup_middle; reflexivity |].
        split; [apply list_lookup_middle; lia |].
        split; [apply list_lookup_middle; lia |].
        intros j c' Hj Hc'.
        apply lookup_snoc_Some in Hj as [[Hlt Hj] | [Hjl _]];
          apply lookup_snoc_Some in Hc' as [[Hlt' Hc'] | [Hjl' Hceq]];
          try lia.
        -- destruct (ApproxLP.best_aux_data st) as [a |] eqn:Ha.
           ++ destruct Hbest as (_ & Hcost & _ & i & _ & _ & _ & Hmin).
              destruct (Hmin j c' Hj Hc') as [Hle _].
              unfold ApproxLP.round_improves in Himp. rewrite Ha, Hcost in Himp.
              cbn in Himp. apply Z.leb_le in Himp. split; lia.
           ++ destruct Hbest as [_ Hall]. rewrite Forall_lookup in Hall.
              specialize (Hall j true Hj). discriminate Hall.
    + unfold ApproxLP.round_improves in Himp.
      destruct (ApproxLP.best_aux_data st) as [a |] eqn:Ha; [| discriminate].
      destruct Hbest as (Hs & Hcost & Hw & i & Hic & Hir & Hii & Hmin).
      rewrite Hcost in Himp. cbn in Himp. apply Z.leb_gt in Himp.
      split; [| split]; cbn.
      * rewrite !length_app, Hlc. reflexivity.
      * rewrite !length_app, Hli. reflexivity.
      * split; [exact Hs |]. split; [exact Hcost |].
        split; [exact Hw |]. exists i.
        split; [apply lookup_app_l_Some, Hic |].
        split; [apply lookup_app_l_Some, Hir |].
        split; [apply lookup_app_l_Some, Hii |].
        intros j c' Hj Hc'.
        apply lookup_snoc_Some in Hj as [[Hlt Hj] | [Hjl _]];
          apply lookup_snoc_Some in Hc' as [[Hlt' Hc'] | [Hjl' Hceq]];
          try lia.
        -- exact (Hmin j c' Hj Hc').
  - split; [| split]; cbn.
    + rewrite !length_app, Hlc. reflexivity.
    + rewrite !length_app, Hli. reflexivity.
    + destruct (ApproxLP.best_aux_data st) as [a |] eqn:Ha.
      * destruct Hbest as (Hs & Hcost & Hw & i & Hic & Hir & Hii & Hmin).
        split; [exact Hs |]. split; [exact Hcost |]. split; [exact Hw |].
        exists i.
        split; [apply lookup_app_l_Some, Hic |].
        split; [apply lookup_app_l_Some, Hir |].
        split; [apply lookup_app_l_Some, Hii |].
        intros j c' Hj Hc'.
        apply lookup_snoc_Some in Hj as [[Hlt Hj] | [Hjl Hf]];
          [| discriminate Hf].
        apply lookup_snoc_Some in Hc' as [[Hlt' Hc'] | [Hjl' Hceq]]; [| lia].
        exact (Hmin j c' Hj Hc').
      * destruct Hbest as [Hs Hall]. split; [exact Hs |].
        apply Forall_app. split; [exact Hall |].
        constructor; [reflexivity | constructor].
Qed.

Lemma round_step_count s st rs :
  length (ApproxLP.rounding_activation_rams
            (ApproxLP.round_step g budget s (st, rs)).1) =
  S (length (ApproxLP.rounding_activation_rams st)).
Proof.
  unfold ApproxLP.round_step. cbn [fst snd].
  destruct (_ && _); cbn; rewrite length_app; cbn; lia.
Qed.

Lemma round_loop_summary s n :
  forall st rs,
    round_summary budget st ->
    round_summary budget (ApproxLP.round_loop g budget s n (st, rs)).1 /\
    length (ApproxLP.rounding_activation_rams
              (ApproxLP.round_loop g budget s n (st, rs)).1) =
    (length (ApproxLP.rounding_activation_rams st) + n)%nat.
Proof.
  induction n as [| n IH]; intros st rs Hsum.
  - split; [exact Hsum | cbn; lia].
  - rewrite (round_loop_succ g budget s n (st, rs)).
    rewrite (surjective_pairing (ApproxLP.round_step g budget s (st, rs))).
    destruct (IH _ (ApproxLP.round_step g budget s (st, rs)).2
                (round_step_summary s st rs Hsum)) as [Hsum' Hlen].
    split; [exact Hsum' |]. rewrite Hlen, round_step_count. lia.
Qed.

Lemma empty_round_summary : round_summary budget empty_round.
Proof. split; [| split]; cbn; [reflexivity | reflexivity |]. split; constructor. Qed.

(** X14.  When the relaxation is solved, the randomized rounding records
    one entry per round in each of its three lists of statistics.  It
    returns a schedule exactly when some round was within the budget, and
    the schedule it returns is a round within the budget whose cpu is the
    least among the rounds within the budget, the last such round. *)
Theorem randomized_best_is_cheapest_round num_rounds rs r s u free_e res stats :
  outcome randomized_solver = Solved r s u free_e ->
  (randomized num_rounds true rs).1 = Returns (ApproxLP.ResultAndRounds res stats) ->
  length (ApproxLP.stat_cpu stats) = Z.to_nat num_rounds /\
  length (ApproxLP.stat_activation_ram stats) = Z.to_nat num_rounds /\
  length (ApproxLP.stat_in_budget stats) = Z.to_nat num_rounds /\
  (schedule res = None <-> Forall (fun b => b = false) (ApproxLP.stat_in_budget stats)) /\
  (schedule res = None <-> schedule_aux_data res = None) /\
  forall a,
    schedule_aux_data res = Some a ->
    exists i,
      ApproxLP.stat_cpu stats !! i = Some (cpu a) /\
      ApproxLP.stat_activation_ram stats !! i = Some (activation_ram a) /\
      ApproxLP.stat_in_budget stats !! i = Some true /\
      forall j c,
        ApproxLP.stat_in_budget stats !! j = Some true ->
        ApproxLP.stat_cpu stats !! j = Some c ->
        (cpu a <= c)%Z /\ (c = cpu a -> (j <= i)%nat).
Proof.
  intros Hout Hret.
  rewrite (randomized_solved _ _ _ _ _ _ _ _ _ _ _ _ _ _ _ _ _ Hout) in Hret.
  cbv zeta in Hret. cbn [fst] in Hret. injection Hret as <- <-. cbn.
  destruct (round_loop_summary s (Z.to_nat num_rounds) empty_round rs
              empty_round_summary) as [(Hlc & Hli & Hbest) Hlen].
  cbn in Hlen. rewrite Hlc, Hli, Hlen.
  do 3 (split; [reflexivity |]).
  destruct (ApproxLP.best_aux_data _) as [a |] eqn:Ha.
  - destruct Hbest as ([sch Hs] & _ & _ & i & Hic & Hir & Hii & Hmin).
    rewrite Hs. split; [| split].
    + split; [discriminate |]. intros Hall. rewrite Forall_lookup in Hall.
      specialize (Hall i true Hii). discriminate Hall.
    + split; discriminate.
    + intros a' [= <-]. exists i. repeat split; try assumption;
        destruct (Hmin j c H H0); assumption.
  - destruct Hbest as [Hs Hall]. rewrite Hs. split; [| split].
    + split; [intros _; exact Hall | reflexivity].
    + split; reflexivity.
    + intros a' Ha'. discriminate Ha'.
Qed.

Lemma round_loop_add s n k :
  forall st,
    ApproxLP.round_loop g budget s (n + k) st =
    ApproxLP.round_loop g budget s k (ApproxLP.round_loop g budget s n st).
Proof.
  induction n as [| n IH]; intros st; [reflexivity |].
  cbn [Nat.add ApproxLP.round_loop]. apply IH.
Qed.

Lemma round_step_not_worse s st rs a :
  round_summary budget st ->
  ApproxLP.best_aux_data st = Some a ->
  exists a',
    ApproxLP.best_aux_data (ApproxLP.round_step g budget s (st, rs)).1 = Some a' /\
    (cpu a' <= cpu a)%Z.
Proof.
  intros (_ & _ & Hbest) Ha. rewrite Ha in Hbest.
  destruct Hbest as (_ & Hcost & _).
  unfold ApproxLP.round_step. cbn [fst snd]. set (c := ApproxLP.candidate g _).
  destruct (_ && ApproxLP.round_improves c.2 st) eqn:Hcond; cbn.
  - apply andb_true_iff in Hcond as [_ Himp].
    unfold ApproxLP.round_improves in Himp. rewrite Ha, Hcost in Himp.
    cbn in Himp. apply Z.leb_le in Himp. exists c.2. split; [reflexivity | exact Himp].
  - exists a. split; [exact Ha | lia].
Qed.

Lemma round_step_extends s st rs :
  ApproxLP.rounding_cpus st `prefix_of`
    ApproxLP.rounding_cpus (ApproxLP.round_step g budget s (st, rs)).1 /\
  ApproxLP.rounding_activation_rams st `prefix_of`
    ApproxLP.rounding_activation_rams (ApproxLP.round_step g budget s (st, rs)).1 /\
  ApproxLP.rounding_in_budgets st `prefix_of`
    ApproxLP.rounding_in_budgets (ApproxLP.round_step g budget s (st, rs)).1.
Proof.
  unfold ApproxLP.round_step. cbn [fst snd].
  destruct (_ && _); cbn; repeat split; apply prefix_app_r; reflexivity.
Qed.

Lemma round_loop_not_worse s k :
  forall st rs,
    round_summary budget st ->
    (ApproxLP.rounding_cpus st `prefix_of`
       ApproxLP.rounding_cpus (ApproxLP.round_loop g budget s k (st, rs)).1 /\
     ApproxLP.rounding_activation_rams st `prefix_of`
       ApproxLP.rounding_activation_rams (ApproxLP.round_loop g budget s k (st, rs)).1 /\
     ApproxLP.rounding_in_budgets st `prefix_of`
       ApproxLP.rounding_in_budgets (ApproxLP.round_loop g budget s k (st, rs)).1) /\
    forall a,
      ApproxLP.best_aux_data st = Some a ->
      exists a',
        ApproxLP.best_aux_data (ApproxLP.round_loop g budget s k (st, rs)).1 = Some a' /\
        (cpu a' <= cpu a)%Z.
Proof.
  induction k as [| k IH]; intros st rs Hsum.
  - split; [repeat split; reflexivity |]. intros a Ha. exists a. split; [exact Ha | lia].
  - rewrite (round_loop_succ g budget s k (st, rs)).
    rewrite (surjective_pairing (ApproxLP.round_step g budget s (st, rs))).
    destruct (IH _ (ApproxLP.round_step g budget s (st, rs)).2
                (round_step_summary s st rs Hsum)) as [(Pc & Pr & Pi) Hbest].
    destruct (round_step_extends s st rs) as (Qc & Qr & Qi).
    split.
    + repeat split; etrans; eassumption.
    + intros a Ha.
      destruct (round_step_not_worse s st rs a Hsum Ha) as (a1 & Ha1 & Hle1).
      destruct (Hbest a1 Ha1) as (a' & Ha' & Hle').
      exists a'. split; [exact Ha' | lia].
Qed.

(** X15.  Running more rounds from the same generator state never loses
    ground: the statistics of the shorter run are the beginning of the
    statistics of the longer one, and if the shorter run returns a schedule
    the longer run returns one whose cpu is not larger. *)
Theorem randomized_more_rounds_not_worse num_rounds more rs r s u free_e
    res stats res' stats' :
  outcome randomized_solver = Solved r s u free_e ->
  (0 <= num_rounds)%Z ->
  (0 <= more)%Z ->
  (randomized num_rounds true rs).1 = Returns (ApproxLP.ResultAndRounds res stats) ->
  (randomized (num_rounds + more) true rs).1
    = Returns (ApproxLP.ResultAndRounds res' stats') ->
  ApproxLP.stat_cpu stats `prefix_of` ApproxLP.stat_cpu stats' /\
  ApproxLP.stat_activation_ram stats `prefix_of` ApproxLP.stat_activation_ram stats' /\
  ApproxLP.stat_in_budget stats `prefix_of` ApproxLP.stat_in_budget stats' /\
  forall a,
    schedule_aux_data res = Some a ->
    exists a', schedule_aux_data res' = Some a' /\ (cpu a' <= cpu a)%Z.
Proof.
  intros Hout Hn Hm Hret Hret'.
  rewrite (randomized_solved _ _ _ _ _ _ _ _ _ _ _ _ _ _ _ _ _ Hout) in Hret.
  rewrite (randomized_solved _ _ _ _ _ _ _ _ _ _ _ _ _ _ _ _ _ Hout) in Hret'.
  cbv zeta in Hret, Hret'. cbn [fst] in Hret, Hret'.
  injection Hret as <- <-. injection Hret' as <- <-. cbn.
  replace (Z.to_nat (num_rounds + more)) with (Z.to_nat num_rounds + Z.to_nat more)%nat
    by lia.
  rewrite round_loop_add.
  rewrite (surjective_pairing
             (ApproxLP.round_loop g budget s (Z.to_nat num_rounds) (empty_round, rs))).
  destruct (round_loop_summary s (Z.to_nat num_rounds) empty_round rs
              empty_round_summary) as [Hsum _].
  destruct (round_loop_not_worse s (Z.to_nat more) _
              (ApproxLP.round_loop g budget s (Z.to_nat num_rounds) (empty_round, rs)).2
              Hsum) as [(Pc & Pr & Pi) Hbest].
  repeat split; assumption.
Qed.

(** *** More about the allow-infeasible mode *)

Lemma sweep_loop_allow_irrelevant s l :
  forall st,
    ApproxLP.sw_aux_data st <> None ->
    ApproxLP.sweep_loop g budget true s l st =
    ApproxLP.sweep_loop g budget false s l st.
Proof.
  induction l as [| t l IH]; intros st Hsome; [reflexivity |].
  rewrite !(sweep_loop_cons g budget _ s l t st).
  assert (Hstep : ApproxLP.sweep_step g budget true s st t =
                  ApproxLP.sweep_step g budget false s st t).
  { unfold ApproxLP.sweep_step.
    destruct (ApproxLP.sw_aux_data st) as [b |] eqn:Hb; [| congruence].
    rewrite !sweep_accepts_later. reflexivity. }
  rewrite Hstep. apply IH. apply sweep_step_keeps_some, Hsome.
Qed.

(** X16.  When the candidate of the first threshold fits the budget, the
    allow-infeasible mode makes no difference: the sweep returns the same
    result with and without it. *)
Theorem allow_mode_irrelevant_when_first_fits t0 rest imposed :
  (forall r s u free_e,
     outcome (sweep_solver imposed) = Solved r s u free_e ->
     within budget (stats_at g s t0)) ->
  sweep (t0 :: rest) imposed true = sweep (t0 :: rest) imposed false.
Proof.
  intros Hfits.
  destruct (outcome (sweep_solver imposed)) as [r s u fe | [msg | cls msg]] eqn:Hout.
  - rewrite !(sweep_solved _ _ _ _ _ _ _ _ _ _ _ _ _ _ _ _ _ Hout). cbv zeta.
    rewrite !(sweep_loop_cons g budget _ s rest t0 empty_sweep).
    assert (Hfirst : ApproxLP.sweep_step g budget false s empty_sweep t0 =
                     ApproxLP.sweep_step g budget true s empty_sweep t0).
    { rewrite allow_first_candidate. unfold ApproxLP.sweep_step.
      cbn [ApproxLP.sw_aux_data].
      change (ApproxLP.candidate g (binarize s t0)).2 with (stats_at g s t0).
      assert (Hacc : ApproxLP.sweep_accepts budget false (stats_at g s t0) None = true).
      { apply sweep_accepts_false_iff. split; [exact (Hfits _ _ _ _ eq_refl) |].
        intros b Hb. discriminate Hb. }
      rewrite Hacc. reflexivity. }
    rewrite Hfirst, sweep_loop_allow_irrelevant; [reflexivity |].
    rewrite allow_first_candidate. discriminate.
  - rewrite !(sweep_value_error _ _ _ _ _ _ _ _ _ _ _ _ _ _ Hout). reflexivity.
  - rewrite !(sweep_other_exception _ _ _ _ _ _ _ _ _ _ _ _ _ _ _ Hout). reflexivity.
Qed.

Lemma sweep_loop_allow_first s t0 rest :
  let st0 := ApproxLP.mkSweep (Some (ApproxLP.candidate g (binarize s t0)).1)
               (Some (stats_at g s t0)) (Some t0) in
  let st := ApproxLP.sweep_loop g budget true s rest st0 in
  (st = st0 /\
   forall t, t ∈ rest -> within budget (stats_at g s t) ->
             (cpu (stats_at g s t0) < cpu (stats_at g s t))%Z) \/
  (exists a, ApproxLP.sw_aux_data st = Some a /\ within budget a).
Proof.
  cbv zeta. induction rest as [| t rest IH] using rev_ind.
  - left. split; [reflexivity |]. intros t Ht. inversion Ht.
  - rewrite sweep_loop_snoc.
    destruct IH as [[Hst Hall] | (a & Ha & Hw)].
    + rewrite Hst. rewrite allow_later_candidate.
      destruct (activation_ram (stats_at g s t) <=? budget)%Z eqn:Hram; cbn [andb].
      * destruct (cpu (stats_at g s t) <=? cpu (stats_at g s t0))%Z eqn:Hcpu.
        -- right. eexists. split; [reflexivity |]. apply Z.leb_le, Hram.
        -- left. split; [reflexivity |]. intros t' Ht' Hw'.
           apply elem_of_app in Ht' as [Ht' | Ht'].
           ++ exact (Hall t' Ht' Hw').
           ++ apply list_elem_of_singleton in Ht' as ->.
              apply Z.leb_gt in Hcpu. exact Hcpu.
      * left. split; [reflexivity |]. intros t' Ht' Hw'.
        apply elem_of_app in Ht' as [Ht' | Ht'].
        -- exact (Hall t' Ht' Hw').
        -- apply list_elem_of_singleton in Ht' as ->.
           apply Z.leb_gt in Hram. unfold within in Hw'. lia.
    + right. unfold ApproxLP.sweep_step. rewrite Ha.
      rewrite sweep_accepts_later.
      destruct (activation_ram _ <=? budget)%Z eqn:Hram; cbn [andb].
      * destruct (cpu _ <=? cpu a)%Z.
        -- eexists. split; [reflexivity |]. apply Z.leb_le, Hram.
        -- exists a. split; [exact Ha | exact Hw].
      * exists a. split; [exact Ha | exact Hw].
Qed.

(** X17.  In the allow-infeasible mode the sweep returns a schedule over
    the budget only if it is the candidate of the first threshold, and then
    every later threshold whose candidate fits the budget has a strictly
    larger cpu than that first candidate. *)
Theorem allow_mode_over_budget_is_first t0 rest imposed r s u free_e res a :
  outcome (sweep_solver imposed) = Solved r s u free_e ->
  sweep (t0 :: rest) imposed true = Returns res ->
  schedule_aux_data res = Some a ->
  ~ within budget a ->
  a = stats_at g s t0 /\
  schedule res = Some (ApproxLP.candidate g (binarize s t0)).1 /\
  approx_deterministic_round_threshold <$> ilp_aux_data res = Some (Some t0) /\
  forall t, t ∈ rest -> within budget (stats_at g s t) ->
            (cpu (stats_at g s t0) < cpu (stats_at g s t))%Z.
Proof.
  intros Hout Hres Ha Hover.
  rewrite (sweep_solved _ _ _ _ _ _ _ _ _ _ _ _ _ _ _ _ _ Hout) in Hres.
  cbv zeta in Hres. injection Hres as <-.
  rewrite allow_first_candidate in Ha |- *.
  destruct (sweep_loop_allow_first s t0 rest) as [[Hst Hall] | (a' & Ha' & Hw')].
  - rewrite Hst in Ha |- *. cbn in Ha |- *. injection Ha as <-.
    repeat split; try reflexivity. exact Hall.
  - cbn [schedule_aux_data] in Ha. rewrite Ha' in Ha. injection Ha as <-.
    contradiction.
Qed.

(** *** More thresholds *)

(** X18.  Without the allow-infeasible mode, sweeping over more thresholds
    is never worse: if the sweep over some thresholds returns a schedule,
    the sweep over any list containing those thresholds returns a feasible
    schedule whose cpu is not larger.  In particular the order of the
    thresholds does not change the cpu of the result. *)
Theorem sweep_more_thresholds_not_worse thresholds thresholds' imposed
    r s u free_e res res' a :
  outcome (sweep_solver imposed) = Solved r s u free_e ->
  thresholds ⊆ thresholds' ->
  sweep thresholds imposed false = Returns res ->
  sweep thresholds' imposed false = Returns res' ->
  schedule_aux_data res = Some a ->
  exists a',
    schedule_aux_data res' = Some a' /\ feasible res' = true /\
    within budget a' /\ (cpu a' <= cpu a)%Z.
Proof.
  intros Hout Hsub Hres Hres' Ha.
  rewrite (sweep_solved _ _ _ _ _ _ _ _ _ _ _ _ _ _ _ _ _ Hout) in Hres.
  rewrite (sweep_solved _ _ _ _ _ _ _ _ _ _ _ _ _ _ _ _ _ Hout) in Hres'.
  cbv zeta in Hres, Hres'. injection Hres as <-. injection Hres' as <-.
  cbn in Ha |- *.
  pose proof (sweep_loop_selects g budget s thresholds) as Hsel.
  pose proof (sweep_loop_selects g budget s thresholds') as Hsel'.
  unfold selects_last_cheapest in Hsel, Hsel'. rewrite Ha in Hsel.
  destruct Hsel as (j & tj & Hj & Hst & Hwj & _).
  rewrite Hst in Ha. cbn in Ha. injection Ha as <-.
  assert (Hin : tj ∈ thresholds') by (apply Hsub; eapply list_elem_of_lookup_2, Hj).
  apply list_elem_of_lookup_1 in Hin as [i Hi].
  destruct (ApproxLP.sw_aux_data
              (ApproxLP.sweep_loop g budget false s thresholds' empty_sweep))
    as [b |] eqn:Hb.
  - destruct Hsel' as (j' & tj' & Hj' & Hst' & Hwj' & Hmin).
    rewrite Hst' in Hb. cbn in Hb. injection Hb as <-.
    exists (stats_at g s tj'). split; [reflexivity |].
    split; [apply bool_decide_eq_true; discriminate |].
    split; [exact Hwj' |]. exact (proj1 (Hmin i tj Hi Hwj)).
  - destruct Hsel' as [_ Hnone]. exfalso. exact (Hnone i tj Hi Hwj).
Qed.

(** *** The budget of the relaxation and the budget of the rounding *)

(** The memory the rounds record is the memory of the schedules rounded
    from the matrices drawn, in the order of the rounds. *)
Lemma round_loop_rams s n :
  forall st rs,
    ApproxLP.rounding_activation_rams (ApproxLP.round_loop g budget s n (st, rs)).1 =
    ApproxLP.rounding_activation_rams st ++
    map (fun d => activation_ram (ApproxLP.candidate g (bernoulli d s)).2)
      (rand_draws (shape s).1 (shape s).2 n rs).
Proof.
  induction n as [| n IH]; intros st rs.
  - cbn. rewrite app_nil_r. reflexivity.
  - rewrite (round_loop_succ g budget s n (st, rs)).
    rewrite (surjective_pairing (ApproxLP.round_step g budget s (st, rs))).
    rewrite IH, (round_step_state g budget s st rs).
    cbn [rand_draws map].
    assert (Hstep : ApproxLP.rounding_activation_rams
                      (ApproxLP.round_step g budget s (st, rs)).1 =
                    ApproxLP.rounding_activation_rams st ++
                    [activation_ram
                       (ApproxLP.candidate g
                          (bernoulli (np_random_rand (shape s).1 (shape s).2 rs).1 s)).2]).
    { unfold ApproxLP.round_step. cbn [fst snd]. destruct (_ && _); reflexivity. }
    rewrite Hstep, <- app_assoc. reflexivity.
Qed.

(** C6, amended.  Both the sweep and the randomized rounding run the
    relaxation solver on a solver object whose budget is
    [int(0.9 * budget)], and on no other: a solver that agrees with the
    given one on the objects of that budget yields the same results, and
    what the entry points return is computed from the outcome of that run
    (its fractional matrix is the one rounded, its diagnostics and its
    exception are the ones handed on).  The reduced budget differs from the
    nominal one for every budget except 0, where both are 0.  Candidates are
    judged against the nominal budget: without the allow-infeasible mode the
    sweep reports a feasible result exactly when some threshold's candidate
    has [activation_ram <= budget], and every per-round flag of the
    randomized rounding is the comparison of the round's memory with
    [budget]. *)
Theorem relaxation_solved_at_reduced_budget
    (run1 run2 : ILPSolver -> LPRun (@Time C)) thresholds imposed allow
    num_rounds return_rounds (rs : @RandomState C) :
  let reduced (imposed_schedule : option ImposedSchedule) :=
    {| ilp_g := g;
       ilp_budget := int_09 budget;
       ilp_gurobi_params :=
         param_dict print_to_console write_log_file solver_cores time_limit approx;
       ilp_seed_s := seed_s;
       ilp_integral := false;
       ilp_solve_r := false;
       ilp_eps_noise := eps_noise;
       ilp_imposed_schedule := imposed_schedule;
       ilp_write_model_file := write_model_file |} in
  (forall solver, ilp_budget solver = int_09 budget -> run1 solver = run2 solver) ->
  (@ApproxLP.solve_approx_lp_deterministic_sweep (with_lpsolver C run1)
     g budget seed_s approx time_limit write_log_file print_to_console
     write_model_file eps_noise solver_cores thresholds imposed allow
   = @ApproxLP.solve_approx_lp_deterministic_sweep (with_lpsolver C run2)
       g budget seed_s approx time_limit write_log_file print_to_console
       write_model_file eps_noise solver_cores thresholds imposed allow) /\
  (@ApproxLP.solve_approx_lp_randomized (with_lpsolver C run1)
     g budget seed_s approx time_limit write_log_file print_to_console
     write_model_file eps_noise solver_cores num_rounds return_rounds rs
   = @ApproxLP.solve_approx_lp_randomized (with_lpsolver C run2)
       g budget seed_s approx time_limit write_log_file print_to_console
       write_model_file eps_noise solver_cores num_rounds return_rounds rs) /\
  (int_09 budget = budget <-> budget = 0%Z) /\
  (forall r s u free_e,
     outcome (lpsolver_run (reduced (Some imposed))) = Solved r s u free_e ->
     exists res,
       sweep thresholds imposed allow = Returns res /\
       solver_budget res = budget /\
       solve_time_s res = solve_time (lpsolver_run (reduced (Some imposed))) /\
       U <$> ilp_aux_data res = Some (Some u) /\
       Free_E <$> ilp_aux_data res = Some (Some free_e) /\
       (forall a, schedule_aux_data res = Some a ->
          exists t, t ∈ thresholds /\ a = stats_at g s t) /\
       (allow = false ->
        (feasible res = true <->
         exists i t, thresholds !! i = Some t /\
                     (activation_ram (stats_at g s t) <= budget)%Z) /\
        (forall a, schedule_aux_data res = Some a ->
           (activation_ram a <= budget)%Z))) /\
  (forall r s u free_e,
     outcome (lpsolver_run (reduced None)) = Solved r s u free_e ->
     exists res stats,
       (randomized num_rounds true rs).1
         = Returns (ApproxLP.ResultAndRounds res stats) /\
       solver_budget res = budget /\
       solve_time_s res = solve_time (lpsolver_run (reduced None)) /\
       U <$> ilp_aux_data res = Some (Some u) /\
       Free_E <$> ilp_aux_data res = Some (Some free_e) /\
       ApproxLP.stat_activation_ram stats =
         map (fun d => activation_ram (ApproxLP.candidate g (bernoulli d s)).2)
           (rand_draws (shape s).1 (shape s).2 (Z.to_nat num_rounds) rs) /\
       ApproxLP.stat_in_budget stats =
         map (fun ram => (ram <=? budget)%Z) (ApproxLP.stat_activation_ram stats) /\
       (forall a, schedule_aux_data res = Some a ->
          (activation_ram a <= budget)%Z)) /\
  (forall e,
     outcome (lpsolver_run (reduced (Some imposed))) = Raised e ->
     match e with
     | ValueError _ =>
         exists res, sweep thresholds imposed allow = Returns res /\
                     feasible res = false /\ schedule res = None
     | OtherException _ _ => sweep thresholds imposed allow = Raises e
     end) /\
  (forall e,
     outcome (lpsolver_run (reduced None)) = Raised e ->
     match e with
     | ValueError _ =>
         exists res, (randomized num_rounds true rs).1
                       = Returns (ApproxLP.ResultAndRounds res (ApproxLP.mkStats [] [] [])) /\
                     feasible res = false /\ schedule res = None
     | OtherException _ _ => (randomized num_rounds true rs).1 = Raises e
     end).
Proof.
  intros reduced Hagree.
  split; [| split; [| split; [| split; [| split; [| split]]]]].
  - apply sweep_solver_agreement, Hagree.
  - apply randomized_solver_agreement, Hagree.
  - apply int_09_fixpoint.
  - intros r s u fe Hout.
    rewrite (sweep_solved g budget seed_s approx time_limit write_log_file
               print_to_console write_model_file eps_noise solver_cores
               thresholds imposed allow r s u fe Hout).
    cbv zeta. eexists. split; [reflexivity |]. cbn.
    split; [reflexivity |]. split; [reflexivity |]. split; [reflexivity |].
    split; [reflexivity |]. split.
    + intros a Ha.
      pose proof (sweep_loop_holds_candidate allow s thresholds empty_sweep []
                    (or_introl eq_refl)) as Hinv.
      cbn [app] in Hinv. destruct Hinv as [Hst | (t & Ht & Hst)];
        rewrite Hst in Ha; cbn in Ha; [discriminate Ha |].
      injection Ha as <-. exists t. split; [exact Ht | reflexivity].
    + intros ->. split.
      * rewrite bool_decide_eq_true. apply sweep_loop_some_iff_within.
      * intros a Ha.
        destruct (sweep_loop_within g budget s thresholds a Ha) as [Hw _].
        exact Hw.
  - intros r s u fe Hout.
    rewrite (randomized_solved g budget seed_s approx time_limit write_log_file
               print_to_console write_model_file eps_noise solver_cores
               num_rounds true rs r s u fe Hout).
    cbv zeta. cbn [fst]. eexists _, _. split; [reflexivity |]. cbn.
    split; [reflexivity |]. split; [reflexivity |]. split; [reflexivity |].
    split; [reflexivity |].
    destruct (round_loop_invariant g budget s (Z.to_nat num_rounds) empty_round rs
                (empty_round_invariant budget)) as (Hbest & _ & Hflags).
    split; [| split].
    + rewrite round_loop_rams. reflexivity.
    + exact Hflags.
    + intros a Ha. exact (Hbest a Ha).
  - intros [msg | cls msg] Hout.
    + rewrite (sweep_value_error g budget seed_s approx time_limit write_log_file
                 print_to_console write_model_file eps_noise solver_cores
                 thresholds imposed allow msg Hout).
      eexists. split; [reflexivity |]. split; reflexivity.
    + exact (sweep_other_exception g budget seed_s approx time_limit write_log_file
               print_to_console write_model_file eps_noise solver_cores
               thresholds imposed allow cls msg Hout).
  - intros [msg | cls msg] Hout.
    + rewrite (randomized_value_error g budget seed_s approx time_limit
                 write_log_file print_to_console write_model_file eps_noise
                 solver_cores num_rounds true rs msg Hout).
      cbv zeta. cbn [fst]. eexists. split; [reflexivity |]. split; reflexivity.
    + rewrite (randomized_other_exception g budget seed_s approx time_limit
                 write_log_file print_to_console write_model_file eps_noise
                 solver_cores num_rounds true rs cls msg Hout).
      reflexivity.
Qed.

End RoundingMore.

(** * The further properties on concrete inputs *)

Section ConcreteMore.
Import Fixture Notions MoreRounding.
#[local] Existing Instance toy.

Lemma greedy_checkpoints_eligible_witness :
  7%nat ∈ Chen.eligible (chain 10) false /\
  7%nat ∈ topological_order_fwd (chain 10) /\
  is_Some (cost_ram (chain 10) !! 7%nat).
Proof.
  apply (greedy_checkpoints_eligible (chain 10) 3 false {[ 3%nat; 7%nat ]} 7%nat).
  - vm_compute. reflexivity.
  - apply elem_of_union. right. apply elem_of_singleton. reflexivity.
Defined.

Lemma sweep_result_consistent_witness :
  exists res,
    sweep (chain 2) 1 [[1%Q]] [1 # 4; 1 # 2] false = Returns res /\
    solve_strategy res = APPROX_DET_ROUND_LP_SWEEP /\ solver_budget res = 1%Z.
Proof.
  eexists. split; [vm_compute; reflexivity |].
  edestruct (sweep_result_consistent (C := toy) (chain 2) 1 (Some [[1%Q]]) true
               None None false None (1 # 100) None [1 # 4; 1 # 2] FULL_SCHEDULE
               false) as (Htag & Hbudget & _).
  - vm_compute. reflexivity.
  - split; [exact Htag | exact Hbudget].
Defined.

Lemma rand_threshold_in_unit_interval_witness :
  length (@ApproxLP.draw_thresholds toy 3 2%Z).1 = 3%nat /\
  Forall (fun t => Qle 0 t /\ Qle t 1) (@ApproxLP.draw_thresholds toy 3 2%Z).1 /\
  exists res t,
    (rand_threshold (chain 2) 1 [[1%Q]] 1 2).1 = Returns res /\
    approx_deterministic_round_threshold <$> ilp_aux_data res = Some (Some t) /\
    Qle 0 t /\ Qle t 1.
Proof.
  destruct (rand_threshold_in_unit_interval (C := toy) (chain 2) 1
              (Some [[1%Q]]) true None None false None (1 # 100) None 3 2%Z)
    as (Hlen & _ & _ & Hall & _).
  split; [exact Hlen |]. split; [exact Hall |].
  eexists.
  destruct (rand_threshold_in_unit_interval (C := toy) (chain 2) 1
              (Some [[1%Q]]) true None None false None (1 # 100) None 1 2%Z)
    as (_ & _ & _ & _ & _ & Hfeas).
  edestruct Hfeas as (t & _ & Ht & Hlo & Hhi).
  - vm_compute. reflexivity.
  - reflexivity.
  - exists t. split; [reflexivity |]. split; [exact Ht |].
    split; [exact Hlo | exact Hhi].
Defined.

Lemma rand_threshold_without_samples_witness :
  (rand_threshold (chain 2) 1 [[1%Q]] 0 7).2 = 7%Z.
Proof.
  apply (rand_threshold_without_samples (C := toy) (chain 2) 1 (Some [[1%Q]])
           true None None false None (1 # 100) None 0 7%Z).
  lia.
Defined.

Lemma binarize_antitone_witness :
  cell (binarize [[3 # 10; 7 # 10]] (1 # 5)) 0 0 = Some 1%Z /\
  cell (binarize [[3 # 10; 7 # 10]] (1 # 2)) 0 0 = Some 0%Z /\
  (0 <= 0 <= 1)%Z /\ (1 <= 1)%Z.
Proof.
  split; [reflexivity |]. split; [reflexivity |].
  destruct (binarize_antitone [[3 # 10; 7 # 10]] (1 # 5) (1 # 2) 0 0) as [_ Hcells].
  - vm_compute. intros Hgt. discriminate Hgt.
  - exact (Hcells 1%Z 0%Z eq_refl eq_refl).
Defined.

Lemma bernoulli_constant_draw_is_threshold_witness :
  bernoulli (replicate 1 (replicate 2 (1 # 4))) [[3 # 10; 1 # 5]]
  = binarize [[3 # 10; 1 # 5]] (1 # 4).
Proof.
  apply (bernoulli_constant_draw_is_threshold 2 [[3 # 10; 1 # 5]] (1 # 4)).
  constructor; [reflexivity | constructor].
Defined.

Lemma randomized_best_is_cheapest_round_witness :
  exists res stats,
    (randomized (chain 2) 2 (Some [[1 # 2]]) 3 0).1
      = Returns (ApproxLP.ResultAndRounds res stats) /\
    length (ApproxLP.stat_cpu stats) = 3%nat.
Proof.
  eexists _, _. split; [vm_compute; reflexivity |].
  edestruct (randomized_best_is_cheapest_round (C := toy) (chain 2) 2
               (Some [[1 # 2]]) true None None false None (1 # 100) None 3 0%Z)
    as (Hlen & _).
  - vm_compute. reflexivity.
  - vm_compute. reflexivity.
  - exact Hlen.
Defined.

Lemma randomized_more_rounds_not_worse_witness :
  exists res stats res' stats',
    (randomized (chain 2) 2 (Some [[1 # 2]]) 1 3).1
      = Returns (ApproxLP.ResultAndRounds res stats) /\
    (randomized (chain 2) 2 (Some [[1 # 2]]) (1 + 2) 3).1
      = Returns (ApproxLP.ResultAndRounds res' stats') /\
    ApproxLP.stat_cpu stats `prefix_of` ApproxLP.stat_cpu stats'.
Proof.
  eexists _, _, _, _. split; [vm_compute; reflexivity |].
  split; [vm_compute; reflexivity |].
  edestruct (randomized_more_rounds_not_worse (C := toy) (chain 2) 2
               (Some [[1 # 2]]) true None None false None (1 # 100) None 1 2 3%Z)
    as (Hpre & _).
  - vm_compute. reflexivity.
  - lia.
  - lia.
  - vm_compute. reflexivity.
  - vm_compute. reflexivity.
  - exact Hpre.
Defined.

Lemma allow_mode_irrelevant_when_first_fits_witness :
  sweep (chain 2) 1 [[1%Q]] [1 # 2; 3 # 4] true
  = sweep (chain 2) 1 [[1%Q]] [1 # 2; 3 # 4] false.
Proof.
  apply (allow_mode_irrelevant_when_first_fits (C := toy) (chain 2) 1
           (Some [[1%Q]]) true None None false None (1 # 100) None
           (1 # 2) [3 # 4] FULL_SCHEDULE).
  intros r s u free_e Hout. vm_compute in Hout. injection Hout as _ <- _ _.
  vm_compute. intros Hgt. discriminate Hgt.
Defined.

Lemma allow_mode_over_budget_is_first_witness :
  (cpu (stats_at (chain 2) [[3 # 10; 7 # 10]] (1 # 5))
   < cpu (stats_at (chain 2) [[3 # 10; 7 # 10]] (1 # 2)))%Z.
Proof.
  edestruct (allow_mode_over_budget_is_first (C := toy) (chain 2) 1
               (Some [[3 # 10; 7 # 10]]) true None None false None (1 # 100)
               None (1 # 5) [1 # 2] FULL_SCHEDULE
               [[3 # 10; 7 # 10]] [[3 # 10; 7 # 10]] [[3 # 10; 7 # 10]]
               [[3 # 10; 7 # 10]])
    as (_ & _ & _ & Hall).
  - reflexivity.
  - vm_compute. reflexivity.
  - reflexivity.
  - vm_compute. intros Hle. apply Hle. reflexivity.
  - apply (Hall (1 # 2)).
    + apply list_elem_of_singleton. reflexivity.
    + vm_compute. intros Hgt. discriminate Hgt.
Defined.

Lemma sweep_more_thresholds_not_worse_witness :
  exists res' a',
    sweep (chain 2) 1 [[3 # 10; 7 # 10]] [1 # 5; 1 # 2] false = Returns res' /\
    schedule_aux_data res' = Some a' /\ (cpu a' <= 1)%Z.
Proof.
  eexists.
  edestruct (sweep_more_thresholds_not_worse (C := toy) (chain 2) 1
               (Some [[3 # 10; 7 # 10]]) true None None false None (1 # 100)
               None [1 # 2] [1 # 5; 1 # 2] FULL_SCHEDULE
               [[3 # 10; 7 # 10]] [[3 # 10; 7 # 10]] [[3 # 10; 7 # 10]]
               [[3 # 10; 7 # 10]])
    as (a' & Ha' & _ & _ & Hle).
  - reflexivity.
  - intros t Ht. apply elem_of_cons. right. exact Ht.
  - vm_compute. reflexivity.
  - vm_compute. reflexivity.
  - reflexivity.
  - exists a'. split; [reflexivity |]. split; [exact Ha' | exact Hle].
Defined.

(** C6, as the specification states it: at the budget 0 the reduced budget
    is the nominal budget, so the solver is run at the nominal budget; a
    solver that fails on exactly the solver objects of budget 0 makes both
    entry points fail. *)
Lemma nominal_budget_reaches_solver_at_zero :
  let picky solver :=
    if (ilp_budget solver =? 0)%Z
    then mkLPRun Z (Raised (OtherException "GurobiError" "nominal budget"))
           0%Z 0%Z 0%Z
    else toy_lpsolver_run solver in
  int_09 0 = 0%Z /\
  ilp_budget
    (ApproxLP.sweep_lpsolver (chain 2) 0 (Some [[1%Q]]) true None None false
       None (1 # 100) None FULL_SCHEDULE) = 0%Z /\
  ilp_budget
    (ApproxLP.randomized_lpsolver (chain 2) 0 (Some [[1%Q]]) true None None
       false None (1 # 100) None) = 0%Z /\
  @ApproxLP.solve_approx_lp_deterministic_sweep (with_lpsolver toy picky)
    (chain 2) 0 (Some [[1%Q]]) true None None false None (1 # 100) None
    [1 # 2] FULL_SCHEDULE false
  = Raises (OtherException "GurobiError" "nominal budget") /\
  (@ApproxLP.solve_approx_lp_randomized (with_lpsolver toy picky)
     (chain 2) 0 (Some [[1%Q]]) true None None false None (1 # 100) None
     1 true 0%Z).1
  = Raises (OtherException "GurobiError" "nominal budget").
Proof. vm_compute. repeat split. Qed.

(** The amended C6 on a solver that fails everywhere but at the reduced
    budget 9 of the nominal budget 10: the sweep returns what it returns
    with the solver that never fails, a result that is feasible because the
    candidate of 0.5 needs memory 1. *)
Lemma relaxation_solved_at_reduced_budget_witness :
  let picky solver :=
    if (ilp_budget solver =? 9)%Z then toy_lpsolver_run solver
    else mkLPRun Z (Raised (OtherException "GurobiError" "unexpected budget"))
           0%Z 0%Z 0%Z in
  @ApproxLP.solve_approx_lp_deterministic_sweep (with_lpsolver toy picky)
    (chain 2) 10 (Some [[1%Q]]) true None None false None (1 # 100) None
    [1 # 2] FULL_SCHEDULE false
  = sweep (chain 2) 10 [[1%Q]] [1 # 2] false /\
  exists res,
    sweep (chain 2) 10 [[1%Q]] [1 # 2] false = Returns res /\
    feasible res = true.
Proof.
  intros picky.
  destruct (relaxation_solved_at_reduced_budget (C := toy) (chain 2) 10
              (Some [[1%Q]]) true None None false None (1 # 100) None
              picky toy_lpsolver_run [1 # 2] FULL_SCHEDULE false 1 true 0%Z)
    as (Hsweep & _ & _ & Hsolved & _).
  - intros solver Hb. unfold picky. rewrite Hb. reflexivity.
  - split; [exact Hsweep |].
    destruct (Hsolved [[1%Q]] [[1%Q]] [[1%Q]] [[1%Q]] eq_refl)
      as (res & Hres & _ & _ & _ & _ & _ & Hnominal).
    exists res. split; [exact Hres |].
    destruct (Hnominal eq_refl) as [Hfeas _]. apply Hfeas.
    exists 0%nat, (1 # 2). split; [reflexivity |]. vm_compute. discriminate.
Defined.

End ConcreteMore.

(** * Properties of the Griewank strategy *)

Section GriewankProperties.
Context `{Collaborators} `{Griewank.GriewankCollaborators}.
Import Griewank MoreRounding.

(** *** The positions of the checkpointable vertices *)

Lemma index_of_lookup a l :
  forall i, index_of a l = Some i -> l !! i = Some a.
Proof.
  induction l as [| b l IH]; intros i Hi; cbn in Hi; [discriminate |].
  destruct (decide (b = a)) as [-> | Hne].
  - injection Hi as <-. reflexivity.
  - destruct (index_of a l) as [k |]; cbn in Hi; [| discriminate].
    injection Hi as <-. cbn. apply IH. reflexivity.
Qed.

Lemma index_of_elem a l : a ∈ l -> is_Some (index_of a l).
Proof.
  induction l as [| b l IH]; intros Hin; [inversion Hin |].
  cbn. destruct (decide (b = a)) as [-> | Hne]; [eexists; reflexivity |].
  apply elem_of_cons in Hin as [-> | Hin]; [contradiction |].
  destruct (IH Hin) as [k Hk]. rewrite Hk. eexists. reflexivity.
Qed.

Lemma index_of_NoDup a l :
  NoDup l -> forall i, l !! i = Some a -> index_of a l = Some i.
Proof.
  induction 1 as [| b l Hnotin Hnd IH]; intros i Hi; [destruct i; discriminate |].
  cbn. destruct (decide (b = a)) as [-> | Hne].
  - destruct i as [| i]; [reflexivity |]. cbn in Hi.
    exfalso. apply Hnotin. eapply list_elem_of_lookup_2, Hi.
  - destruct i as [| i]; cbn in Hi; [congruence |].
    rewrite (IH i Hi). reflexivity.
Qed.

Lemma meta_fold_sound (L l : list nat) :
  forall m : gmap nat nat,
    (forall i w, m !! i = Some w -> index_of w L = Some i) ->
    forall i w,
      foldl (fun m ap => match index_of ap L with
                         | Some i => <[i := ap]> m
                         | None => m
                         end) m l !! i = Some w ->
      index_of w L = Some i.
Proof.
  induction l as [| a l IH]; intros m Hm i w; cbn [foldl]; [apply Hm |].
  apply IH. intros j u Hj.
  destruct (index_of a L) as [k |] eqn:Hk; [| exact (Hm j u Hj)].
  destruct (decide (k = j)) as [-> | Hne].
  - rewrite lookup_insert_eq in Hj. injection Hj as <-. exact Hk.
  - rewrite lookup_insert_ne in Hj by exact Hne. exact (Hm j u Hj).
Qed.

Lemma meta_fold_keeps (L l : list nat) :
  forall (m : gmap nat nat) i w,
    index_of w L = Some i ->
    m !! i = Some w ->
    foldl (fun m ap => match index_of ap L with
                       | Some i => <[i := ap]> m
                       | None => m
                       end) m l !! i = Some w.
Proof.
  induction l as [| a l IH]; intros m i w Hi Hm; cbn [foldl]; [exact Hm |].
  apply IH; [exact Hi |].
  destruct (index_of a L) as [k |] eqn:Hk; [| exact Hm].
  destruct (decide (k = i)) as [-> | Hne].
  - rewrite lookup_insert_eq. f_equal.
    apply index_of_lookup in Hk. apply index_of_lookup in Hi. congruence.
  - rewrite lookup_insert_ne by exact Hne. exact Hm.
Qed.

Lemma meta_fold_complete (L l : list nat) :
  forall (m : gmap nat nat) i w,
    w ∈ l ->
    index_of w L = Some i ->
    foldl (fun m ap => match index_of ap L with
                       | Some i => <[i := ap]> m
                       | None => m
                       end) m l !! i = Some w.
Proof.
  induction l as [| a l IH]; intros m i w Hin Hi; [inversion Hin |].
  cbn [foldl]. apply elem_of_cons in Hin as [-> | Hin].
  - apply meta_fold_keeps; [exact Hi |]. rewrite Hi. apply lookup_insert_eq.
  - apply IH; assumption.
Qed.

Lemma meta_to_real_v_lookup g i w :
  meta_to_real_v g !! i = Some w <-> index_of w (ap_points g) = Some i.
Proof.
  unfold meta_to_real_v. split.
  - apply meta_fold_sound. intros j u Hj. rewrite lookup_empty in Hj. discriminate.
  - intros Hi. apply meta_fold_complete; [| exact Hi].
    eapply list_elem_of_lookup_2, index_of_lookup, Hi.
Qed.

Lemma map_time_le_size g _t : (map_time g _t <= size g)%nat.
Proof. unfold map_time. destruct (meta_get g _t); lia. Qed.

(** X19.  The dictionary [meta_to_real_v] sends a position to the vertex
    standing there in the list of forward articulation points followed by
    their backward counterparts, but only the first position of a vertex is
    a key: a vertex that occurs again later in the list gets no second
    entry.  Without repetitions the dictionary is the list itself.
    [map_time] never exceeds [g.size], whatever the time it is given. *)
Theorem meta_to_real_v_first_positions g i w :
  (meta_to_real_v g !! i = Some w <-> index_of w (ap_points g) = Some i) /\
  (meta_to_real_v g !! i = Some w -> ap_points g !! i = Some w) /\
  (NoDup (ap_points g) -> meta_to_real_v g !! i = ap_points g !! i) /\
  (forall _t, (map_time g _t <= size g)%nat).
Proof.
  split; [apply meta_to_real_v_lookup |]. split; [| split].
  - intros Hm. apply index_of_lookup, meta_to_real_v_lookup, Hm.
  - intros Hnd. destruct (ap_points g !! i) as [u |] eqn:Hu.
    + apply meta_to_real_v_lookup, index_of_NoDup; assumption.
    + destruct (meta_to_real_v g !! i) as [u |] eqn:Hm; [| reflexivity].
      apply meta_to_real_v_lookup, index_of_lookup in Hm. congruence.
  - apply map_time_le_size.
Qed.

(** *** When no solution is returned *)

Lemma filter_nil_not_elem {A} (P : A -> Prop) `{forall a, Decision (P a)} (l : list A) :
  (forall a, a ∈ l -> ~ P a) -> filter P l = [].
Proof.
  induction l as [| a l IH]; intros Hnone; [reflexivity |].
  rewrite filter_cons. destruct (decide (P a)) as [Hp | _].
  - exfalso. apply (Hnone a); [apply elem_of_cons; left; reflexivity | exact Hp].
  - apply IH. intros b Hb. apply Hnone. apply elem_of_cons. right. exact Hb.
Qed.

(** X20.  [_solve_griewank_to_rs] gives up with [(None, None)], without
    raising, when loading the table raises an exception, when the loaded
    object is [None], and when no row of the table has the budget
    [min(budget, max_budget)], in particular for a budget below every
    tabulated one.  On an empty table it fails with the [ValueError] of
    [max]. *)
Theorem griewank_gives_up g budget :
  (forall e, load_griewank (length (sorted_ap_points g)) = LoadRaised e ->
     solve_griewank_to_rs g budget = Returns None) /\
  (load_griewank (length (sorted_ap_points g)) = Loaded None ->
     solve_griewank_to_rs g budget = Returns None) /\
  (load_griewank (length (sorted_ap_points g)) = Loaded (Some []) ->
     solve_griewank_to_rs g budget =
       Raises (ValueError "max() arg is an empty sequence")) /\
  (forall first rest,
     load_griewank (length (sorted_ap_points g)) = Loaded (Some (first :: rest)) ->
     (forall row, row ∈ first :: rest ->
        rr_budget row <> Z.min budget (max_budget_of first rest)) ->
     solve_griewank_to_rs g budget = Returns None) /\
  (forall first rest,
     load_griewank (length (sorted_ap_points g)) = Loaded (Some (first :: rest)) ->
     (forall row, row ∈ first :: rest -> (budget < rr_budget row)%Z) ->
     solve_griewank_to_rs g budget = Returns None).
Proof.
  unfold solve_griewank_to_rs.
  assert (Hnone : forall first rest,
            load_griewank (length (sorted_ap_points g)) = Loaded (Some (first :: rest)) ->
            (forall row, row ∈ first :: rest ->
               rr_budget row <> Z.min budget (max_budget_of first rest)) ->
            match load_griewank (length (sorted_ap_points g)) with
            | Loaded (Some []) => Raises (ValueError "max() arg is an empty sequence")
            | Loaded (Some (first :: rest)) =>
                match rows_for budget first rest with
                | [] => Returns None
                | r :: rows =>
                    match mark_rows g (r :: rows) (base_matrix g) with
                    | Returns S' => Returns (Some (solve_r_opt g S', S'))
                    | Raises e => Raises e
                    end
                end
            | Loaded None => Returns None
            | LoadRaised _ => Returns None
            end = Returns None).
  { intros first rest Hload Hno. rewrite Hload. unfold rows_for.
    rewrite (filter_nil_not_elem _ (first :: rest) Hno). reflexivity. }
  split; [| split; [| split; [| split]]].
  - intros e Hload. rewrite Hload. reflexivity.
  - intros Hload. rewrite Hload. reflexivity.
  - intros Hload. rewrite Hload. reflexivity.
  - exact Hnone.
  - intros first rest Hload Hbelow. apply (Hnone first rest Hload).
    intros row Hrow Heq. specialize (Hbelow row Hrow). lia.
Qed.

(** *** The budget is capped by the table *)

Lemma foldl_max_le (b : Z) (l : list Z) :
  forall acc, (acc <= b)%Z -> Forall (fun c => (c <= b)%Z) l ->
              (foldl Z.max acc l <= b)%Z.
Proof.
  induction l as [| c l IH]; intros acc Hacc Hall; [exact Hacc |].
  apply Forall_cons in Hall as [Hc Hl]. cbn [foldl]. apply IH; [lia | exact Hl].
Qed.

Lemma max_budget_of_le (b : Z) first rest :
  Forall (fun row => (rr_budget row <= b)%Z) (first :: rest) ->
  (max_budget_of first rest <= b)%Z.
Proof.
  intros Hall. apply Forall_cons in Hall as [Hf Hr]. unfold max_budget_of.
  apply foldl_max_le; [exact Hf |].
  induction Hr; constructor; assumption.
Qed.

(** X21.  A budget above the largest tabulated budget is capped to it: for
    two budgets that are both at least every budget of the loaded table,
    [_solve_griewank_to_rs] returns the same matrices (or fails in the same
    way). *)
Theorem griewank_budget_capped g budget1 budget2 table :
  load_griewank (length (sorted_ap_points g)) = Loaded (Some table) ->
  Forall (fun row => (rr_budget row <= budget1)%Z) table ->
  Forall (fun row => (rr_budget row <= budget2)%Z) table ->
  solve_griewank_to_rs g budget1 = solve_griewank_to_rs g budget2.
Proof.
  intros Hload H1 H2. unfold solve_griewank_to_rs. rewrite Hload.
  destruct table as [| first rest]; [reflexivity |].
  pose proof (max_budget_of_le budget1 first rest H1) as Hm1.
  pose proof (max_budget_of_le budget2 first rest H2) as Hm2.
  unfold rows_for.
  replace (Z.min budget1 (max_budget_of first rest))
    with (Z.min budget2 (max_budget_of first rest)) by lia.
  reflexivity.
Qed.

(** *** The stored matrix that is built *)

Lemma lookup_insert_list {A : Type} (l : list A) (k : nat) (a : A) :
  forall j,
    <[k := a]> l !! j =
    if decide (j = k) then (fun _ => a) <$> l !! j else l !! j.
Proof.
  revert k. induction l as [| b l IH]; intros k j.
  - cbn. rewrite lookup_nil. destruct (decide (j = k)); reflexivity.
  - destruct k as [| k]; destruct j as [| j]; cbn; try reflexivity.
    rewrite IH. destruct (decide (j = k)), (decide (S j = S k));
      try reflexivity; lia.
Qed.

Lemma fill_diagonal_cell (view : BMatrix) :
  forall k i j,
    cell (fill_diagonal k view) i j =
    if decide (j = k + i)%nat then (fun _ => 1%Z) <$> cell view i j
    else cell view i j.
Proof.
  induction view as [| row view IH]; intros k i j.
  - unfold cell. cbn. rewrite lookup_nil. cbn. destruct (decide _); reflexivity.
  - destruct i as [| i].
    + unfold cell. cbn. rewrite lookup_insert_list.
      destruct (decide (j = k)), (decide (j = k + 0)%nat); try reflexivity; lia.
    + change (cell (fill_diagonal k (row :: view)) (S i) j)
        with (cell (fill_diagonal (S k) view) i j).
      change (cell (row :: view) (S i) j) with (cell view i j).
      rewrite IH.
      destruct (decide (j = S k + i)%nat), (decide (j = k + S i)%nat);
        try reflexivity; lia.
Qed.

Lemma fill_below_diagonal_cell (M : BMatrix) i :
  cell (fill_below_diagonal M) (S i) i = (fun _ => 1%Z) <$> cell M (S i) i.
Proof.
  destruct M as [| row rest]; [reflexivity |].
  change (cell (fill_below_diagonal (row :: rest)) (S i) i)
    with (cell (fill_diagonal 0 rest) i i).
  change (cell (row :: rest) (S i) i) with (cell rest i i).
  rewrite fill_diagonal_cell. destruct (decide (i = 0 + i)%nat); [reflexivity | lia].
Qed.

Lemma grows_refl n M : grows n M M.
Proof. split; [reflexivity |]. split; [reflexivity |]. intros i j. left. reflexivity. Qed.

Lemma grows_trans n M1 M2 M3 : grows n M1 M2 -> grows n M2 M3 -> grows n M1 M3.
Proof.
  intros (Hl1 & Hr1 & Hc1) (Hl2 & Hr2 & Hc2).
  split; [congruence |]. split; [intros i; rewrite Hr1; apply Hr2 |].
  intros i j.
  destruct (Hc2 i j) as [H2 | (H2 & Hn & Hs2)];
    destruct (Hc1 i j) as [H1 | (H1 & Hn' & Hs1)].
  - left. congruence.
  - right. split; [congruence |]. split; assumption.
  - right. split; [exact H2 |]. split; [exact Hn |]. rewrite <- H1. exact Hs2.
  - right. split; [exact H2 |]. split; assumption.
Qed.

Lemma write_one_grows n M t c M' :
  (t < n)%nat -> write_one M t c = Some M' -> grows n M M'.
Proof.
  intros Ht. unfold write_one, grows. unfold BMatrix in *.
  destruct (M !! t) as [row |] eqn:Hrow; [| discriminate].
  destruct (decide (c < length row)%nat) as [Hc | _]; [| discriminate].
  intros [= <-].
  assert (Hrows : forall i,
            <[t := <[c := 1%Z]> row]> M !! i =
            if decide (i = t) then Some (<[c := 1%Z]> row) else M !! i).
  { intros i. rewrite lookup_insert_list.
    destruct (decide (i = t)) as [-> | _]; [rewrite Hrow |]; reflexivity. }
  split; [rewrite length_insert; reflexivity |]. split.
  - intros i. rewrite Hrows. destruct (decide (i = t)) as [-> | _]; [| reflexivity].
    rewrite Hrow. cbn. rewrite length_insert. reflexivity.
  - intros i j. unfold cell. rewrite Hrows.
    destruct (decide (i = t)) as [-> | _]; [| left; reflexivity].
    rewrite Hrow. cbn. rewrite lookup_insert_list.
    destruct (decide (j = c)) as [-> | _]; [| left; reflexivity].
    destruct (lookup_lt_is_Some_2 row c Hc) as [b Hb]. rewrite Hb. cbn.
    right. split; [reflexivity |]. split; [exact Ht | eexists; reflexivity].
Qed.

Lemma mark_steps_grows g n nodeid steps :
  Forall (fun t => (t < n)%nat) steps ->
  forall M M',
    mark_steps g nodeid steps M = Returns M' -> grows n M M'.
Proof.
  induction 1 as [| t steps Ht _ IH]; intros M M' Hmark; cbn in Hmark.
  - injection Hmark as <-. apply grows_refl.
  - destruct (0 <? nodeid)%Z; [| exact (IH M M' Hmark)].
    destruct (meta_get g nodeid) as [c |]; [| discriminate].
    destruct (write_one M t c) as [M1 |] eqn:Hw; [| discriminate].
    eapply grows_trans; [exact (write_one_grows n M t c M1 Ht Hw) |].
    exact (IH M1 M' Hmark).
Qed.

Lemma steps_of_below_size g row :
  Forall (fun t => (t < size g)%nat) (steps_of g row).
Proof.
  apply Forall_forall. intros t Ht. unfold steps_of in Ht.
  apply elem_of_seq in Ht.
  pose proof (map_time_le_size g (rr_timeend row + 1)). lia.
Qed.

Lemma mark_rows_grows g rows :
  forall M M',
    mark_rows g rows M = Returns M' -> grows (size g) M M'.
Proof.
  induction rows as [| row rows IH]; intros M M' Hmark; cbn in Hmark.
  - injection Hmark as <-. apply grows_refl.
  - destruct (mark_steps g (rr_nodeid row) (steps_of g row) M) as [M1 | e] eqn:Hs;
      [| discriminate].
    eapply grows_trans; [| exact (IH M1 M' Hmark)].
    exact (mark_steps_grows g (size g) _ _ (steps_of_below_size g row) M M1 Hs).
Qed.

(** X22.  When [_solve_griewank_to_rs] returns matrices, the recompute
    matrix is [solve_r_opt] of the stored matrix, and the stored matrix has
    the shape of the matrix the table was applied to; it differs from it
    only by cells set to 1 in rows below [g.size], so nothing that was
    stored is dropped.  Every vertex is still stored at the step after its
    own: the cell below the diagonal holds 1 wherever it exists. *)
Theorem griewank_stored_matrix g budget R M' :
  solve_griewank_to_rs g budget = Returns (Some (R, M')) ->
  R = solve_r_opt g M' /\
  grows (size g) (base_matrix g) M' /\
  forall i, is_Some (cell M' (S i) i) -> cell M' (S i) i = Some 1%Z.
Proof.
  unfold solve_griewank_to_rs. intros Hsolve.
  destruct (load_griewank _) as [[[| first rest] |] | e]; try discriminate.
  destruct (rows_for budget first rest) as [| row rows]; [discriminate |].
  destruct (mark_rows g (row :: rows) (base_matrix g)) as [M1 | e] eqn:Hmark;
    [| discriminate].
  injection Hsolve as <- <-.
  pose proof (mark_rows_grows g (row :: rows) _ _ Hmark) as Hgrow.
  split; [reflexivity |]. split; [exact Hgrow |].
  intros i Hsome. destruct Hgrow as (_ & _ & Hcells).
  destruct (Hcells (S i) i) as [Hsame | (Hone & _)]; [| exact Hone].
  rewrite Hsame in Hsome |- *. unfold base_matrix in Hsome |- *.
  rewrite fill_below_diagonal_cell in Hsome |- *.
  destruct (cell _ (S i) i); [reflexivity |].
  destruct Hsome as [b Hb]. discriminate Hb.
Qed.

End GriewankProperties.

Section GriewankConcrete.
Import Griewank MoreRounding.
#[local] Existing Instance Fixture.toy.
#[local] Existing Instance toy_griewank.

Lemma griewank_budget_capped_witness :
  solve_griewank_to_rs (Fixture.chain 6) 3 = solve_griewank_to_rs (Fixture.chain 6) 7.
Proof.
  apply (griewank_budget_capped (Fixture.chain 6) 3 7 toy_table).
  - reflexivity.
  - repeat constructor; cbn; lia.
  - repeat constructor; cbn; lia.
Defined.

Lemma griewank_stored_matrix_witness :
  exists R M',
    solve_griewank_to_rs (Fixture.chain 6) 2 = Returns (Some (R, M')) /\
    grows 6 (base_matrix (Fixture.chain 6)) M' /\
    cell M' 1 2 = Some 1%Z.
Proof.
  eexists _, _. split; [vm_compute; reflexivity |].
  edestruct (griewank_stored_matrix (Fixture.chain 6) 2) as (_ & Hgrow & _).
  - vm_compute. reflexivity.
  - split; [exact Hgrow | reflexivity].
Defined.

End GriewankConcrete.
